(** * In-lane cruising plugin: path geometry calculations

    A shallow embedding of [inlanecruising_plugin/src/calculation.cpp]
    (namespace [inlanecruising_plugin]) and the properties of its
    functions.

    - C++ [double] is Rocq's primitive binary64 [float]: every arithmetic
      operation, comparison and square root below is the IEEE 754 one,
      with NaN, signed zeros and infinities.
    - C++ [int] and [size_t] are [Z] with the range of the type written
      out: signed overflow and out-of-range vector accesses are undefined
      behaviour, unsigned arithmetic wraps modulo [2^64].
    - [std::vector] is [list]; [v[i]] is a lookup that is undefined out
      of range, [push_back] appends at the end.
    - A call to a function is a computation in the monad [M]: it returns
      a value, throws a C++ exception or has undefined behaviour, and it
      leaves the [ROS_WARN_STREAM] diagnostics it emitted.
    - What the file calls but does not define is taken as follows: the
      lane model and the fitted curve are records, the planar distance
      is written out, and [atan2] and [sin] of the C mathematics library
      are parameters of the functions that call them. *)

From Stdlib Require Import ZArith Floats String.
From stdpp Require Import base list.

Local Open Scope Z_scope.

(** ** Outcomes of a call *)

(** C++ exceptions thrown in this file. *)
Variant exception : Type :=
  | invalid_argument (what : string).

(** One piece streamed into a [ROS_WARN_STREAM] message. *)
Variant stream_item : Type :=
  | Str (s : string)
  | Dbl (d : float).

(** A diagnostic is the list of the pieces that were streamed. *)
Definition diagnostic : Type := list stream_item.

Inductive outcome (A : Type) : Type :=
  | Ok (a : A)            (* normal return *)
  | Throw (e : exception) (* a C++ exception leaves the function *)
  | Undefined             (* undefined behaviour *)
  | Diverges.             (* a loop model ran out of fuel *)
Arguments Ok {A} a.
Arguments Throw {A} e.
Arguments Undefined {A}.
Arguments Diverges {A}.

(** The result of a call and the diagnostics emitted until it ended. *)
Definition M (A : Type) : Type := outcome A * list diagnostic.

Definition result {A} (m : M A) : outcome A := fst m.
Definition diagnostics {A} (m : M A) : list diagnostic := snd m.

Global Instance M_ret : MRet M := λ A a, (Ok a, []).

Global Instance M_bind : MBind M := λ A B f m,
  match m with
  | (Ok a, log) => let '(r, log') := f a in (r, log ++ log')
  | (Throw e, log) => (Throw e, log)
  | (Undefined, log) => (Undefined, log)
  | (Diverges, log) => (Diverges, log)
  end.

Definition throw {A} (e : exception) : M A := (Throw e, []).
Definition undefined {A} : M A := (Undefined, []).
Definition diverges {A} : M A := (Diverges, []).
Definition ROS_WARN_STREAM (msg : diagnostic) : M unit := (Ok tt, [msg]).

(** A call fails when it does not return normally: it throws, or its
    behaviour is undefined. *)
Definition fails {A} (m : M A) : Prop :=
  match result m with Ok _ => False | _ => True end.

(** ** Machine integers and vectors *)

Definition INT_MIN : Z := - 2 ^ 31.
Definition INT_MAX : Z := 2 ^ 31 - 1.
Definition SIZE_MODULUS : Z := 2 ^ 64.

(** [a + b] on [int]: signed overflow is undefined behaviour. *)
Definition int_add (a b : Z) : M Z :=
  let r := a + b in
  if (INT_MIN <=? r) && (r <=? INT_MAX) then mret r else undefined.

(** Conversion of an [int] to [size_t] in a mixed comparison or
    division (the usual arithmetic conversions). *)
Definition to_size_t (i : Z) : Z := i mod SIZE_MODULUS.

(** [a + b] and [a - b] on [size_t] wrap around. *)
Definition size_t_add (a b : Z) : Z := (a + b) mod SIZE_MODULUS.
Definition size_t_sub (a b : Z) : Z := (a - b) mod SIZE_MODULUS.

(** [a / b] on [size_t]: division by zero is undefined behaviour. *)
Definition size_t_div (a b : Z) : M Z :=
  if b =? 0 then undefined else mret (a / b).

(** [v.size()]. *)
Definition size {A} (v : list A) : Z := Z.of_nat (length v).

(** No [std::vector] holds more than [PTRDIFF_MAX] elements
    ([max_size()]); a list is a vector when it respects that bound. *)
Definition PTRDIFF_MAX : Z := 2 ^ 63 - 1.
Definition is_vector {A} (v : list A) : Prop := size v <= PTRDIFF_MAX.

(** [v[i]] for reading, [i] a [size_t]: undefined out of range. *)
Definition at_ {A} (v : list A) (i : Z) : M A :=
  match v !! Z.to_nat i with
  | Some a => mret a
  | None => undefined
  end.

(** [v[i] = a]: undefined out of range. *)
Definition assign {A} (v : list A) (i : Z) (a : A) : M (list A) :=
  if decide (Z.to_nat i < length v)%nat then mret (<[Z.to_nat i := a]> v)
  else undefined.

(** [v.push_back(a)]. *)
Definition push_back {A} (v : list A) (a : A) : list A := v ++ [a].

(** [v.back()]: undefined on an empty vector. *)
Definition back {A} (v : list A) : M A :=
  match last v with
  | Some a => mret a
  | None => undefined
  end.

(** [v.reserve(n)] changes the capacity only, not the contents (the
    requests made in this file are at most [size() + 1], below the
    limit at which [reserve] throws). *)
Definition reserve {A} (v : list A) (n : Z) : list A := v.

(** ** Data model *)

(** [lanelet::BasicPoint2d], a 2D position. *)
Record BasicPoint2d : Type := mkPoint { pt_x : float; pt_y : float }.

(** [PointSpeedPair = std::pair<lanelet::BasicPoint2d, double>]. *)
Definition PointSpeedPair : Type := BasicPoint2d * float.

(** [cav_msgs::VehicleState], the four fields listed at the head of the
    source file. *)
Record VehicleState : Type := mkVehicleState {
  X_pos_global : float;
  Y_pos_global : float;
  orientation : float;
  longitudinal_vel : float
}.

(** [cav_msgs::LaneFollowingManeuver], the fields read here. *)
Record LaneFollowingManeuver : Type := mkLaneFollowingManeuver {
  start_dist : float;
  end_dist : float;
  end_speed : float
}.

(** [cav_msgs::Maneuver]: a [uint8] discriminant and the lane-following
    payload. *)
Record Maneuver : Type := mkManeuver {
  type : Z;
  lane_following_maneuver : LaneFollowingManeuver
}.

(** Modelled from the spec: the discriminant constant
    [cav_msgs::Maneuver::LANE_FOLLOWING] of the message definition,
    which is outside this file; only its being one fixed value matters. *)
Definition LANE_FOLLOWING : Z := 0.

(** Modelled from the spec: the lane model, an external collaborator
    that returns the ordered lane sequence between two route distances;
    a lanelet carries the positions of its centerline. *)
Record ConstLanelet : Type := mkLanelet { centerline2d : list BasicPoint2d }.

Record WorldModel : Type := mkWorldModel {
  getLaneletsBetween : float → float → bool → list ConstLanelet
}.

(** Modelled from the spec: [carma_wm::geometry::concatenate_lanelets],
    the concatenated centerline geometry of a lane sequence as an
    ordered list of positions. *)
Definition concatenate_lanelets (lanelets : list ConstLanelet) : list BasicPoint2d :=
  concat (map centerline2d lanelets).

(** Modelled from the spec: [tk::spline], the fitted curve, an opaque
    interpolant that is a pure function of its control points;
    [set_points] stores them. *)
Record spline : Type := mkSpline { m_x : list float; m_y : list float }.

Definition set_points (spl : spline) (points_x points_y : list float) : spline :=
  {| m_x := points_x; m_y := points_y |}.

Definition default_spline : spline := {| m_x := []; m_y := [] |}.

(** ** maneuvers_to_points *)

Definition unsupported_maneuver : exception :=
  invalid_argument "In-Lane Cruising does not support this maneuver type"%string.

Fixpoint maneuvers_to_points_loop (wm : WorldModel) (maneuvers : list Maneuver)
    (points_and_target_speeds : list PointSpeedPair) : M (list PointSpeedPair) :=
  match maneuvers with
  | [] => mret points_and_target_speeds
  | manuever :: rest =>
    if negb (type manuever =? LANE_FOLLOWING) then throw unsupported_maneuver
    else
      let lane_following_maneuver := lane_following_maneuver manuever in
      let lanelets :=
        getLaneletsBetween wm (start_dist lane_following_maneuver)
                           (end_dist lane_following_maneuver) true in
      let route_geometry := concatenate_lanelets lanelets in
      maneuvers_to_points_loop wm rest
        (foldl (λ acc p, push_back acc (p, end_speed lane_following_maneuver))
               points_and_target_speeds route_geometry)
  end.

Definition maneuvers_to_points (maneuvers : list Maneuver) (wm : WorldModel)
    : M (list PointSpeedPair) :=
  maneuvers_to_points_loop wm maneuvers [].

(** ** downsample_points *)

(** The [for] loop: [i] is an [int], compared with the [size_t] size
    after conversion.  [fuel] bounds the number of iterations. *)
Fixpoint downsample_loop (fuel : nat) (points : list PointSpeedPair) (nth_point : Z)
    (i : Z) (downsampled_points : list PointSpeedPair) : M (list PointSpeedPair) :=
  if to_size_t i <? size points then
    match fuel with
    | O => diverges
    | S fuel' =>
      p ← at_ points (to_size_t i);
      i' ← int_add i nth_point;
      downsample_loop fuel' points nth_point i' (push_back downsampled_points p)
    end
  else mret downsampled_points.

Definition downsample_points (points : list PointSpeedPair) (nth_point : Z)
    : M (list PointSpeedPair) :=
  let downsampled_points := [] in
  capacity ← size_t_div (size points) (to_size_t nth_point);
  let downsampled_points := reserve downsampled_points (capacity + 1) in
  downsample_loop (S (length points)) points nth_point 0 downsampled_points.

(** ** getNearestPointIndex *)

(** [std::numeric_limits<double>::max()]. *)
Definition DBL_MAX : float := 0x1.fffffffffffffp+1023%float.

(** Modelled from the spec: [lanelet::geometry::distance2d], the
    Euclidean (planar) distance of two positions, the square root of
    the sum of the squared coordinate differences. *)
Definition distance2d (p q : BasicPoint2d) : float :=
  let dx := (pt_x p - pt_x q)%float in
  let dy := (pt_y p - pt_y q)%float in
  sqrt (dx * dx + dy * dy)%float.

(** The range-for loop over [points] with its three locals. *)
Fixpoint nearest_loop (veh_point : BasicPoint2d) (points : list PointSpeedPair)
    (min_distance : float) (i best_index : Z) : M Z :=
  match points with
  | [] => mret best_index
  | p :: rest =>
    let distance := distance2d (fst p) veh_point in
    let '(best_index, min_distance) :=
      if (distance <? min_distance)%float then (i, distance)
      else (best_index, min_distance) in
    i ← int_add i 1;
    nearest_loop veh_point rest min_distance i best_index
  end.

Definition getNearestPointIndex (points : list PointSpeedPair) (state : VehicleState)
    : M Z :=
  let veh_point := mkPoint (X_pos_global state) (Y_pos_global state) in
  let min_distance := DBL_MAX in
  let i := 0 in
  let best_index := 0 in
  nearest_loop veh_point points min_distance i best_index.

(** ** compute_fit *)

(** The loop that logs every point and splits it into its coordinates. *)
Fixpoint compute_fit_loop (fuel : nat) (basic_points : list BasicPoint2d) (i : Z)
    (points_x points_y : list float) : M (list float * list float) :=
  if i <? size basic_points then
    match fuel with
    | O => diverges
    | S fuel' =>
      p ← at_ basic_points i;
      ROS_WARN_STREAM [Str "basic_points[i]: "; Dbl (pt_x p); Str ", "; Dbl (pt_y p)];;
      let points_x := push_back points_x (pt_x p) in
      let points_y := push_back points_y (pt_y p) in
      compute_fit_loop fuel' basic_points (size_t_add i 1) points_x points_y
    end
  else mret (points_x, points_y).

Definition compute_fit (basic_points : list BasicPoint2d) : M (option spline) :=
  if size basic_points <? 3 then
    ROS_WARN_STREAM [Str "Insufficient Spline Points"];;
    mret None
  else
    let spl := default_spline in
    '(points_x, points_y) ← compute_fit_loop (length basic_points) basic_points 0 [] [];
    let spl := set_points spl points_x points_y in
    mret (Some spl).

(** ** Yaw and curvature *)

(** [std::min(a, b)] is [(b < a) ? b : a]. *)
Definition std_min (a b : float) : float := if (b <? a)%float then b else a.

(** [fabs]. *)
Definition fabs (a : float) : float := abs a.

(** [pow(a, 2)], the correctly rounded square. *)
Definition pow2 (a : float) : float := (a * a)%float.

Section Libm.

(** The two functions of the C mathematics library that the source
    calls and that binary64 arithmetic does not define. *)
Variable atan2 : float → float → float.
Variable sin : float → float.

Local Open Scope float_scope.

Definition calculate_yaw (cur_point next_point : list float) : M float :=
  n0 ← at_ next_point 0%Z;
  c0 ← at_ cur_point 0%Z;
  let dx := n0 - c0 in
  n1 ← at_ next_point 1%Z;
  c1 ← at_ cur_point 1%Z;
  let dy := n1 - c1 in
  let yaw := atan2 dy dx in
  mret yaw.

Definition calculate_curvature (cur_point next_point : list float) : M float :=
  c0 ← at_ cur_point 0%Z;
  n0 ← at_ next_point 0%Z;
  c1 ← at_ cur_point 1%Z;
  n0' ← at_ next_point 0%Z;
  let dist := sqrt (pow2 (c0 - n0) + pow2 (c1 - n0')) in
  angle ← calculate_yaw cur_point next_point;
  let r := 0.5 * (dist / sin angle) in
  let max_curvature := 100000 in
  let curvature := std_min (1 / r) max_curvature in
  mret curvature.

(** The loops of the two estimators; the unused local [lookahead] of
    the source is left out. *)
Fixpoint orientation_loop (fuel : nat) (sampling_points : list BasicPoint2d) (i : Z)
    (cur_point next_point orientations : list float) : M (list float) :=
  if (i <? size_t_sub (size sampling_points) 1)%Z then
    match fuel with
    | O => diverges
    | S fuel' =>
      p ← at_ sampling_points i;
      cur_point ← assign cur_point 0%Z (pt_x p);
      p ← at_ sampling_points i;
      cur_point ← assign cur_point 1%Z (pt_y p);
      q ← at_ sampling_points (size_t_add i 1);
      next_point ← assign next_point 0%Z (pt_x q);
      q ← at_ sampling_points (size_t_add i 1);
      next_point ← assign next_point 1%Z (pt_y q);
      res ← calculate_yaw cur_point next_point;
      orientation_loop fuel' sampling_points (size_t_add i 1)
                       cur_point next_point (push_back orientations res)
    end
  else mret orientations.

Definition compute_orientation_from_fit (curve : spline)
    (sampling_points : list BasicPoint2d) : M (list float) :=
  let orientations := [] in
  let cur_point := [0.0; 0.0] in
  let next_point := [0.0; 0.0] in
  orientations ← orientation_loop (S (length sampling_points)) sampling_points 0%Z
                   cur_point next_point orientations;
  last_orientation ← back orientations;
  mret (push_back orientations last_orientation).

Fixpoint curvature_loop (fuel : nat) (sampling_points : list BasicPoint2d) (i : Z)
    (cur_point next_point curvatures : list float) : M (list float) :=
  if (i <? size_t_sub (size sampling_points) 1)%Z then
    match fuel with
    | O => diverges
    | S fuel' =>
      p ← at_ sampling_points i;
      cur_point ← assign cur_point 0%Z (pt_x p);
      p ← at_ sampling_points i;
      cur_point ← assign cur_point 1%Z (pt_y p);
      q ← at_ sampling_points (size_t_add i 1);
      next_point ← assign next_point 0%Z (pt_x q);
      q ← at_ sampling_points (size_t_add i 1);
      next_point ← assign next_point 1%Z (pt_y q);
      cur ← calculate_curvature cur_point next_point;
      curvature_loop fuel' sampling_points (size_t_add i 1)
                     cur_point next_point (push_back curvatures (fabs cur))
    end
  else mret curvatures.

Definition compute_curvature_from_fit (curve : spline)
    (sampling_points : list BasicPoint2d) : M (list float) :=
  let curvatures := [] in
  let cur_point := [0.0; 0.0] in
  let next_point := [0.0; 0.0] in
  ROS_WARN_STREAM [Str "Computing Curvatures"];;
  curvatures ← curvature_loop (S (length sampling_points)) sampling_points 0%Z
                 cur_point next_point curvatures;
  last_curvature ← back curvatures;
  mret (push_back curvatures last_curvature).

End Libm.

(** ** splitPointSpeedPairs and pointSpeedPairsToBasicPoints *)

(** The range-for loop of [splitPointSpeedPairs]: each entry is pushed
    on the two output vectors. *)
Fixpoint split_loop (points : list PointSpeedPair)
    (basic_points : list BasicPoint2d) (speeds : list float)
    : list BasicPoint2d * list float :=
  match points with
  | [] => (basic_points, speeds)
  | p :: rest =>
    let basic_points := push_back basic_points (fst p) in
    let speeds := push_back speeds (snd p) in
    split_loop rest basic_points speeds
  end.

(** The two outputs are passed by pointer: [None] is the null pointer,
    whose dereference is undefined, [Some v] points to the vector [v].
    The call returns nothing; the model returns what the two vectors
    hold when it ends. *)
Definition splitPointSpeedPairs (points : list PointSpeedPair)
    (basic_points : option (list BasicPoint2d)) (speeds : option (list float))
    : M (list BasicPoint2d * list float) :=
  match basic_points with
  | None => undefined
  | Some basic_points =>
    let basic_points := reserve basic_points (size points) in
    match speeds with
    | None => undefined
    | Some speeds =>
      let speeds := reserve speeds (size points) in
      mret (split_loop points basic_points speeds)
    end
  end.

Fixpoint basic_points_loop (points : list PointSpeedPair)
    (basic_points : list BasicPoint2d) : list BasicPoint2d :=
  match points with
  | [] => basic_points
  | p :: rest => basic_points_loop rest (push_back basic_points (fst p))
  end.

Definition pointSpeedPairsToBasicPoints (points : list PointSpeedPair)
    : list BasicPoint2d :=
  let basic_points := [] in
  let basic_points := reserve basic_points (size points) in
  basic_points_loop points basic_points.

(** ** Definitions used to state the properties *)

(** The distance of a path entry to the vehicle position of [state], as
    [getNearestPointIndex] computes it. *)
Definition distance_to (state : VehicleState) (p : PointSpeedPair) : float :=
  distance2d (fst p) (mkPoint (X_pos_global state) (Y_pos_global state)).

(** The value of the loop counter of [downsample_points] when the loop
    is left: the first multiple of the stride that is not below the
    size. *)
Definition exit_counter (len nth_point : Z) : Z :=
  (len + nth_point - 1) / nth_point * nth_point.

(** A call returns a sequence as long as [n] whose last two elements
    are the same value. *)
Definition returns_padded (n : nat) (m : M (list float)) : Prop :=
  ∃ front v, result m = Ok (front ++ [v; v]) ∧ length (front ++ [v; v]) = n.

(** The weakest reading of the same: the call returns, its sequence has
    length [n], and its last element is the one before it where there
    is one. *)
Definition returns_aligned (n : nat) (m : M (list float)) : Prop :=
  ∃ ys, result m = Ok ys ∧ length ys = n ∧
        ((2 ≤ length ys)%nat → last ys = ys !! (length ys - 2)%nat).

Section Stated.

Variable atan2 : float → float → float.
Variable sin : float → float.

Local Open Scope float_scope.

(** The values that the two loops push for a sample [p] and its
    successor [q], read off the bodies of [calculate_yaw] and
    [calculate_curvature]. *)
Definition yaw_between (p q : BasicPoint2d) : float :=
  atan2 (pt_y q - pt_y p) (pt_x q - pt_x p).

Definition curvature_between (p q : BasicPoint2d) : float :=
  let dist := sqrt (pow2 (pt_x p - pt_x q) + pow2 (pt_y p - pt_x q)) in
  let angle := atan2 (pt_y q - pt_y p) (pt_x q - pt_x p) in
  fabs (std_min (1 / (0.5 * (dist / sin angle))) 100000).

(** The curvature between two consecutive samples in the words of the
    specification: the chord is the Euclidean distance of the samples. *)
Definition stated_curvature (p q : BasicPoint2d) : float :=
  let d := sqrt (pow2 (pt_x p - pt_x q) + pow2 (pt_y p - pt_y q)) in
  let yaw := atan2 (pt_y q - pt_y p) (pt_x q - pt_x p) in
  let r := 0.5 * d / sin yaw in
  abs (std_min (1 / r) 100000).

End Stated.

(** Values of the C library at axis-aligned arguments: [atan2] on the
    axes as Annex F of the C standard fixes them, [sin] at zero and at
    the binary64 neighbours of plus and minus pi/2.  Other arguments
    are not tabulated and give NaN.  The tables serve to run the model on
    concrete inputs. *)
Definition PI_2 : float := 0x1.921fb54442d18p+0%float.

Definition atan2_on_axes (y x : float) : float :=
  if (x =? 0)%float then
    if (0 <? y)%float then PI_2
    else if (y <? 0)%float then (- PI_2)%float
    else if (1 / x =? infinity)%float then y else nan
  else if ((y =? 0) && (0 <? x))%float then y
  else nan.

Definition sin_on_axes (a : float) : float :=
  if (a =? 0)%float then a
  else if (a =? PI_2)%float then 1%float
  else if (a =? - PI_2)%float then (- 1)%float
  else nan.

(** A curvature value lies in the closed interval from 0 to the clamp
    100000; NaN compares false and lies outside, and so does an
    infinity. *)
Definition within_clamp (k : float) : bool :=
  ((0 <=? k) && (k <=? 100000))%float.

(** A specification float that is a number with the sign bit clear:
    plus zero, a positive finite value or plus infinity. *)
Definition SFnonneg (x : spec_float) : Prop :=
  match x with
  | S754_nan => False
  | S754_zero s | S754_infinity s | S754_finite s _ _ => s = false
  end.

(** The state of the scan of [getNearestPointIndex] after the entries
    [seen]: either no distance was below [DBL_MAX] yet and the locals
    have their initial values, or [best_index] is an entry of [seen] at
    distance [min_distance], no entry of [seen] is closer and no earlier
    entry is as close. *)
Definition nearest_inv (state : VehicleState) (seen : list PointSpeedPair)
    (min_distance : float) (best_index : Z) : Prop :=
  (min_distance = DBL_MAX ∧ best_index = 0 ∧
   ∀ q, q ∈ seen → (distance_to state q <? DBL_MAX)%float = false)
  ∨
  (∃ pb, 0 <= best_index ∧ seen !! Z.to_nat best_index = Some pb ∧
         distance_to state pb = min_distance ∧
         (min_distance <? DBL_MAX)%float = true ∧
         (∀ j q, seen !! j = Some q →
                 (distance_to state q <? min_distance)%float = false) ∧
         (∀ j q, seen !! j = Some q → (j < Z.to_nat best_index)%nat →
                 (distance_to state q <=? min_distance)%float = false)).

(** The pairs that [maneuvers_to_points] pushes for one lane-following
    maneuver: the positions of the lane geometry between its two
    distances, each with the end speed of the maneuver. *)
Definition maneuver_points (wm : WorldModel) (m : Maneuver) : list PointSpeedPair :=
  map (λ p, (p, end_speed (lane_following_maneuver m)))
      (concatenate_lanelets
         (getLaneletsBetween wm (start_dist (lane_following_maneuver m))
                             (end_dist (lane_following_maneuver m)) true)).

(** The diagnostic that [compute_fit] emits for one point. *)
Definition point_diagnostic (p : BasicPoint2d) : diagnostic :=
  [Str "basic_points[i]: "; Dbl (pt_x p); Str ", "; Dbl (pt_y p)].

(** The number of entries that [downsample_points] keeps. *)
Definition kept (len nth_point : Z) : Z := (len + nth_point - 1) / nth_point.

(** The lane geometry that [maneuvers_to_points] requests for one
    maneuver. *)
Definition route_geometry (wm : WorldModel) (m : Maneuver) : list BasicPoint2d :=
  concatenate_lanelets
    (getLaneletsBetween wm (start_dist (lane_following_maneuver m))
                        (end_dist (lane_following_maneuver m)) true).

(** ** Sample inputs *)

Definition sample_world : WorldModel :=
  mkWorldModel (λ _ _ _, [mkLanelet [mkPoint 0 0; mkPoint 1 0; mkPoint 2 0]]).

Definition sample_following : Maneuver :=
  mkManeuver LANE_FOLLOWING (mkLaneFollowingManeuver 0 10 5).

Definition sample_other : Maneuver :=
  mkManeuver 1 (mkLaneFollowingManeuver 10 20 5).

Definition sample_state : VehicleState := mkVehicleState 0 0 0 0.

(** A path of five entries along the diagonal, all at speed 5. *)
Definition sample_path : list PointSpeedPair :=
  [(mkPoint 0 0, 5%float); (mkPoint 1 1, 5%float); (mkPoint 2 2, 5%float);
   (mkPoint 3 3, 5%float); (mkPoint 4 4, 5%float)].

(** * Properties *)

(** ** The monad *)

Lemma bind_ret {A B} (a : A) (f : A → M B) : mret a ≫= f = f a.
Proof. unfold mret, M_ret, mbind, M_bind. by destruct (f a). Qed.

Lemma ret_bind {A} (m : M A) : m ≫= mret = m.
Proof.
  destruct m as [[a| | |] log]; try done.
  unfold mbind, M_bind, mret, M_ret. by rewrite app_nil_r.
Qed.

Lemma bind_assoc {A B C} (m : M A) (f : A → M B) (g : B → M C) :
  (m ≫= f) ≫= g = m ≫= (λ a, f a ≫= g).
Proof.
  destruct m as [[a| | |] log]; try done.
  unfold mbind, M_bind. destruct (f a) as [[b| | |] log']; try done.
  destruct (g b) as [r log'']. by rewrite app_assoc.
Qed.

Lemma bind_undefined {A B} (f : A → M B) : undefined ≫= f = undefined.
Proof. done. Qed.

Lemma bind_throw {A B} (e : exception) (f : A → M B) : throw e ≫= f = throw e.
Proof. done. Qed.

Lemma bind_result_ok {A B} (m : M A) (f : A → M B) (a : A) :
  result m = Ok a → result (m ≫= f) = result (f a).
Proof.
  destruct m as [r log]. simpl. intros ->.
  unfold mbind, M_bind. by destruct (f a).
Qed.

Lemma at_lookup {A} (v : list A) (i : Z) (a : A) :
  v !! Z.to_nat i = Some a → at_ v i = mret a.
Proof. unfold at_. by intros ->. Qed.

Lemma int_add_in_range (a b : Z) :
  INT_MIN <= a + b <= INT_MAX → int_add a b = mret (a + b).
Proof.
  intros [Hlo Hhi]. unfold int_add.
  apply Z.leb_le in Hlo, Hhi. by rewrite Hlo, Hhi.
Qed.

Lemma to_size_t_nonneg (i : Z) : 0 <= i < SIZE_MODULUS → to_size_t i = i.
Proof. intros H. unfold to_size_t. by apply Z.mod_small. Qed.

Lemma to_size_t_negative (i : Z) :
  - SIZE_MODULUS <= i < 0 → to_size_t i = i + SIZE_MODULUS.
Proof.
  intros H. unfold to_size_t.
  replace i with (i + SIZE_MODULUS + (-1) * SIZE_MODULUS) at 1 by lia.
  rewrite Z_mod_plus_full. apply Z.mod_small. lia.
Qed.

(** ** maneuvers_to_points *)

Lemma maneuvers_to_points_loop_throws wm maneuvers acc :
  (∃ m, m ∈ maneuvers ∧ type m ≠ LANE_FOLLOWING) →
  maneuvers_to_points_loop wm maneuvers acc = throw unsupported_maneuver.
Proof.
  revert acc. induction maneuvers as [|m rest IH]; intros acc [m' [Hin Hty]].
  - by apply elem_of_nil in Hin.
  - simpl. destruct (Z.eqb_spec (type m) LANE_FOLLOWING) as [Heq|Hne]; simpl; [|done].
    apply IH. exists m'. split; [|done].
    apply elem_of_cons in Hin as [->|Hin]; [congruence|done].
Qed.

(** C4: a maneuver sequence that holds a maneuver whose discriminant is
    not LANE_FOLLOWING makes [maneuvers_to_points] throw the
    unsupported-maneuver error; no sequence, partial or not, is
    returned. *)
Theorem maneuvers_to_points_rejects_unsupported
    (maneuvers : list Maneuver) (wm : WorldModel) :
  (∃ m, m ∈ maneuvers ∧ type m ≠ LANE_FOLLOWING) →
  maneuvers_to_points maneuvers wm = throw unsupported_maneuver ∧
  ∀ points, result (maneuvers_to_points maneuvers wm) ≠ Ok points.
Proof.
  intros H. unfold maneuvers_to_points.
  rewrite (maneuvers_to_points_loop_throws wm maneuvers [] H).
  split; [done|]. intros points. simpl. discriminate.
Qed.

Lemma maneuvers_to_points_rejects_unsupported_witness :
  maneuvers_to_points [sample_following; sample_other] sample_world
  = throw unsupported_maneuver ∧
  ∀ points,
    result (maneuvers_to_points [sample_following; sample_other] sample_world)
    ≠ Ok points.
Proof.
  apply (maneuvers_to_points_rejects_unsupported
           [sample_following; sample_other] sample_world).
  exists sample_other. split; [|by vm_compute].
  apply elem_of_cons. right. apply elem_of_cons. by left.
Defined.

(** ** compute_fit *)

(** C9: on fewer than three points [compute_fit] returns the empty
    result, normally, and emits the diagnostic "Insufficient Spline
    Points". *)
Theorem compute_fit_insufficient (basic_points : list BasicPoint2d) :
  (length basic_points < 3)%nat →
  compute_fit basic_points = (Ok None, [[Str "Insufficient Spline Points"]]).
Proof.
  intros H. unfold compute_fit, size.
  destruct (Z.ltb_spec (Z.of_nat (length basic_points)) 3) as [_|Hge]; [done|lia].
Qed.

Lemma compute_fit_insufficient_witness :
  compute_fit [mkPoint 0 0; mkPoint 1 1]
  = (Ok None, [[Str "Insufficient Spline Points"]]).
Proof. apply (compute_fit_insufficient [mkPoint 0 0; mkPoint 1 1]). simpl. lia. Defined.

(** ** The curve argument *)

(** C10: the yaw and curvature sequences, and the whole outcome of the
    two calls, depend on the sampling points only: two fitted curves
    give the same result. *)
Theorem from_fit_ignores_curve (atan2 : float → float → float) (sin : float → float)
    (c1 c2 : spline) (sampling_points : list BasicPoint2d) :
  compute_orientation_from_fit atan2 c1 sampling_points
  = compute_orientation_from_fit atan2 c2 sampling_points ∧
  compute_curvature_from_fit atan2 sin c1 sampling_points
  = compute_curvature_from_fit atan2 sin c2 sampling_points.
Proof. split; reflexivity. Qed.

(** ** downsample_points *)

Lemma downsample_loop_exit fuel points nth_point i acc :
  (to_size_t i <? size points) = false →
  downsample_loop fuel points nth_point i acc = mret acc.
Proof. intros H. destruct fuel; simpl; by rewrite H. Qed.

Lemma downsample_loop_step fuel points nth_point i acc :
  (to_size_t i <? size points) = true →
  downsample_loop (S fuel) points nth_point i acc
  = (p ← at_ points (to_size_t i);
     i' ← int_add i nth_point;
     downsample_loop fuel points nth_point i' (push_back acc p)).
Proof. intros H. simpl. by rewrite H. Qed.

Lemma size_lookup {A} (v : list A) (i : Z) :
  0 <= i < size v → ∃ a, v !! Z.to_nat i = Some a.
Proof.
  unfold size. intros H. apply lookup_lt_is_Some_2. lia.
Qed.

(** The loop from counter [k * nth_point] on, with enough fuel and no
    overflow of the counter, appends the entries at the later multiples
    of the stride. *)
Lemma downsample_loop_spec points nth_point :
  1 <= nth_point →
  (∀ k, 0 <= k → k * nth_point < size points → (k + 1) * nth_point <= INT_MAX) →
  ∀ fuel k acc,
    0 <= k → k * nth_point <= INT_MAX →
    size points - k * nth_point <= Z.of_nat fuel →
    ∃ out,
      downsample_loop fuel points nth_point (k * nth_point) acc = mret (acc ++ out) ∧
      ∀ j : nat, out !! j = points !! Z.to_nat ((k + Z.of_nat j) * nth_point).
Proof.
  intros HN Hover. induction fuel as [|fuel IH]; intros k acc Hk Hmax Hfuel.
  - exists []. split.
    + rewrite app_nil_r. apply downsample_loop_exit.
      rewrite to_size_t_nonneg by (unfold SIZE_MODULUS, INT_MAX in *; nia).
      apply Z.ltb_ge. lia.
    + intros j. symmetry. apply lookup_ge_None. unfold size in Hfuel. nia.
  - assert (Hsz : to_size_t (k * nth_point) = k * nth_point).
    { apply to_size_t_nonneg. unfold SIZE_MODULUS, INT_MAX in *. nia. }
    destruct (Z.ltb_spec (k * nth_point) (size points)) as [Hlt|Hge].
    + destruct (size_lookup points (k * nth_point)) as [p Hp]; [nia|].
      rewrite downsample_loop_step by (rewrite Hsz; by apply Z.ltb_lt).
      rewrite Hsz, (at_lookup _ _ _ Hp), bind_ret.
      pose proof (Hover k Hk Hlt) as Hnext.
      rewrite int_add_in_range by (unfold INT_MIN; nia).
      rewrite bind_ret.
      replace (k * nth_point + nth_point) with ((k + 1) * nth_point) by lia.
      destruct (IH (k + 1) (push_back acc p)) as [out [Hloop Hout]]; [lia|done|nia|].
      exists (p :: out). split.
      * rewrite Hloop. unfold push_back. by rewrite <- app_assoc.
      * intros [|j]; simpl.
        -- rewrite <- Hp. f_equal. f_equal. lia.
        -- rewrite Hout. f_equal. f_equal. lia.
    + exists []. split.
      * rewrite app_nil_r. apply downsample_loop_exit.
        rewrite Hsz. by apply Z.ltb_ge.
      * intros j. symmetry. apply lookup_ge_None. unfold size in Hge. nia.
Qed.

Lemma exit_counter_bounds len nth_point k :
  1 <= nth_point → 0 <= k → k * nth_point < len →
  (k + 1) * nth_point <= exit_counter len nth_point.
Proof.
  intros HN Hk Hlt. unfold exit_counter.
  replace (len + nth_point - 1) with (len - 1 + 1 * nth_point) by lia.
  rewrite Z.div_add by lia.
  assert (k <= (len - 1) / nth_point) by (apply Z.div_le_lower_bound; lia).
  nia.
Qed.

(** C6: for a non-empty sequence and a stride of at least 1 whose loop
    counter stays an [int], [downsample_points] returns exactly the
    entries at the indices 0, N, 2N, ... below the length, in their
    order: the k-th output is the input at index k * N, and there is no
    k-th output when that index is past the end.  Its first element is
    the first input, and when the input is not longer than N it is the
    first input alone. *)
Theorem downsample_points_every_nth (points : list PointSpeedPair) (nth_point : Z) :
  points ≠ [] → 1 <= nth_point →
  exit_counter (size points) nth_point <= INT_MAX →
  ∃ out,
    downsample_points points nth_point = mret out ∧
    (∀ k : nat, out !! k = points !! (k * Z.to_nat nth_point)%nat) ∧
    (∃ p, head points = Some p ∧ head out = Some p) ∧
    (size points <= nth_point → out = take 1 points).
Proof.
  intros Hne HN Hexit.
  assert (Hover : ∀ k, 0 <= k → k * nth_point < size points →
                       (k + 1) * nth_point <= INT_MAX).
  { intros k Hk Hlt. pose proof (exit_counter_bounds _ _ _ HN Hk Hlt). lia. }
  assert (Hpos : 0 < size points).
  { unfold size. destruct points; [done|simpl; lia]. }
  assert (HNmax : nth_point <= INT_MAX) by (specialize (Hover 0); lia).
  destruct (downsample_loop_spec points nth_point HN Hover
              (S (length points)) 0 []) as [out [Hloop Hout]];
    [lia|unfold INT_MAX; lia|unfold size; lia|].
  assert (Hlook : ∀ k : nat, out !! k = points !! (k * Z.to_nat nth_point)%nat).
  { intros k. rewrite Hout. f_equal. lia. }
  exists out. repeat split.
  - unfold downsample_points, size_t_div.
    rewrite to_size_t_nonneg by (unfold SIZE_MODULUS, INT_MAX in *; lia).
    destruct (Z.eqb_spec nth_point 0) as [?|_]; [lia|].
    rewrite bind_ret. unfold reserve. exact Hloop.
  - exact Hlook.
  - destruct points as [|p rest]; [done|]. exists p. split; [done|].
    rewrite head_lookup, Hlook. done.
  - intros Hshort. apply list_eq. intros [|k].
    + rewrite Hlook. by destruct points.
    + rewrite Hlook, lookup_take_ge by lia.
      apply lookup_ge_None. unfold size in Hshort. nia.
Qed.

Lemma downsample_points_every_nth_witness :
  ∃ out,
    downsample_points sample_path 2 = mret out ∧
    (∀ k : nat, out !! k = sample_path !! (k * Z.to_nat 2)%nat) ∧
    (∃ p, head sample_path = Some p ∧ head out = Some p) ∧
    (size sample_path <= 2 → out = take 1 sample_path).
Proof.
  apply (downsample_points_every_nth sample_path 2);
    [done | lia | by vm_compute].
Defined.

Lemma downsample_points_zero_stride (points : list PointSpeedPair) :
  downsample_points points 0 = undefined.
Proof. done. Qed.

(** C8, as the code has it: a negative stride is not rejected.  For
    every vector of points and every negative [int] stride
    [downsample_points] returns normally the sequence that holds the
    first input entry alone, and the empty sequence for an empty
    input. *)
Theorem downsample_points_negative_stride (points : list PointSpeedPair) (nth_point : Z) :
  is_vector points → INT_MIN <= nth_point < 0 →
  downsample_points points nth_point = mret (take 1 points).
Proof.
  unfold is_vector, PTRDIFF_MAX, INT_MIN. intros Hvec HN.
  assert (Hconv : to_size_t nth_point = nth_point + SIZE_MODULUS).
  { apply to_size_t_negative. unfold SIZE_MODULUS. lia. }
  unfold downsample_points, size_t_div. rewrite Hconv.
  destruct (Z.eqb_spec (nth_point + SIZE_MODULUS) 0) as [Hz|_];
    [unfold SIZE_MODULUS in Hz; lia|].
  rewrite bind_ret. unfold reserve.
  destruct points as [|p rest].
  - done.
  - rewrite downsample_loop_step by done.
    change (to_size_t 0) with 0. rewrite (at_lookup _ 0 p) by done.
    rewrite bind_ret, int_add_in_range by (unfold INT_MIN, INT_MAX; lia).
    rewrite bind_ret. apply downsample_loop_exit.
    rewrite Z.add_0_l, Hconv. apply Z.ltb_ge.
    unfold size, SIZE_MODULUS in *. lia.
Qed.

Lemma downsample_points_negative_stride_witness :
  downsample_points sample_path (-3) = mret (take 1 sample_path).
Proof.
  apply (downsample_points_negative_stride sample_path (-3)); by vm_compute.
Defined.

(** The claim C8 as stated fails: with stride -1 the call on a
    one-entry sequence returns that entry instead of failing. *)
Lemma downsample_points_negative_stride_returns :
  ¬ fails (downsample_points [(mkPoint 0 0, 5%float)] (-1)).
Proof. vm_compute. tauto. Qed.

(** ** getNearestPointIndex on an empty path *)

(** C7, as the code has it: an empty path is not rejected.  For every
    vehicle state [getNearestPointIndex] returns index 0 on the empty
    path, normally and without a diagnostic. *)
Theorem getNearestPointIndex_empty (state : VehicleState) :
  getNearestPointIndex [] state = mret 0.
Proof. reflexivity. Qed.

(** The claim C7 as stated fails: on the empty path the call does not
    fail, it returns. *)
Lemma getNearestPointIndex_empty_returns :
  ¬ fails (getNearestPointIndex [] sample_state).
Proof. vm_compute. tauto. Qed.

(** ** Yaw and curvature sequences: shape *)

Lemma size_t_sub_one (n : Z) : 1 <= n <= PTRDIFF_MAX → size_t_sub n 1 = n - 1.
Proof.
  intros H. unfold size_t_sub. apply Z.mod_small.
  unfold PTRDIFF_MAX, SIZE_MODULUS in *. lia.
Qed.

Lemma size_t_add_one (i : Z) : 0 <= i < PTRDIFF_MAX → size_t_add i 1 = i + 1.
Proof.
  intros H. unfold size_t_add. apply Z.mod_small.
  unfold PTRDIFF_MAX, SIZE_MODULUS in *. lia.
Qed.

Lemma assign_0 {A} (a x : A) (v : list A) : assign (a :: v) 0 x = mret (x :: v).
Proof. unfold assign. destruct (decide _) as [_|H]; [done|simpl in H; lia]. Qed.

Lemma assign_1 {A} (a b x : A) (v : list A) :
  assign (a :: b :: v) 1 x = mret (a :: x :: v).
Proof. unfold assign. destruct (decide _) as [_|H]; [done|simpl in H; lia]. Qed.

Lemma snoc_of_length {A} (v : list A) :
  (1 ≤ length v)%nat → ∃ front a, v = front ++ [a].
Proof.
  destruct v as [|a v _] using rev_ind; [simpl; lia|]. intros _. by exists v, a.
Qed.

Lemma back_snoc {A} (front : list A) (a : A) : back (front ++ [a]) = mret a.
Proof. unfold back. by rewrite last_snoc. Qed.

Section Shape.

Variable atan2 : float → float → float.
Variable sin : float → float.

Lemma calculate_yaw_pair (a b c d : float) :
  calculate_yaw atan2 [a; b] [c; d] = mret (atan2 (d - b) (c - a))%float.
Proof. reflexivity. Qed.

Lemma calculate_curvature_pair (a b c d : float) :
  calculate_curvature atan2 sin [a; b] [c; d]
  = mret (std_min (1 / (0.5 * (sqrt (pow2 (a - c) + pow2 (b - c))
                               / sin (atan2 (d - b) (c - a)))))
                  100000)%float.
Proof. reflexivity. Qed.

Lemma orientation_loop_step fuel pts i cur next acc :
  (i <? size_t_sub (size pts) 1) = true →
  orientation_loop atan2 (S fuel) pts i cur next acc
  = (p ← at_ pts i;
     cur ← assign cur 0 (pt_x p);
     p ← at_ pts i;
     cur ← assign cur 1 (pt_y p);
     q ← at_ pts (size_t_add i 1);
     next ← assign next 0 (pt_x q);
     q ← at_ pts (size_t_add i 1);
     next ← assign next 1 (pt_y q);
     res ← calculate_yaw atan2 cur next;
     orientation_loop atan2 fuel pts (size_t_add i 1) cur next (push_back acc res)).
Proof. intros H. simpl. by rewrite H. Qed.

Lemma orientation_loop_exit fuel pts i cur next acc :
  (i <? size_t_sub (size pts) 1) = false →
  orientation_loop atan2 fuel pts i cur next acc = mret acc.
Proof. intros H. destruct fuel; simpl; by rewrite H. Qed.

Lemma curvature_loop_step fuel pts i cur next acc :
  (i <? size_t_sub (size pts) 1) = true →
  curvature_loop atan2 sin (S fuel) pts i cur next acc
  = (p ← at_ pts i;
     cur ← assign cur 0 (pt_x p);
     p ← at_ pts i;
     cur ← assign cur 1 (pt_y p);
     q ← at_ pts (size_t_add i 1);
     next ← assign next 0 (pt_x q);
     q ← at_ pts (size_t_add i 1);
     next ← assign next 1 (pt_y q);
     cur' ← calculate_curvature atan2 sin cur next;
     curvature_loop atan2 sin fuel pts (size_t_add i 1) cur next
                    (push_back acc (fabs cur'))).
Proof. intros H. simpl. by rewrite H. Qed.

Lemma curvature_loop_exit fuel pts i cur next acc :
  (i <? size_t_sub (size pts) 1) = false →
  curvature_loop atan2 sin fuel pts i cur next acc = mret acc.
Proof. intros H. destruct fuel; simpl; by rewrite H. Qed.

(** One turn of either loop on two-element coordinate vectors. *)
Ltac loop_turn step Hp Hq :=
  rewrite step by (by apply Z.ltb_lt);
  rewrite (at_lookup _ _ _ Hp), !bind_ret, assign_0, !bind_ret, assign_1, !bind_ret;
  rewrite size_t_add_one by lia;
  rewrite (at_lookup _ _ _ Hq), !bind_ret, assign_0, !bind_ret, assign_1, !bind_ret.

(** With enough fuel the loop from index [i] on returns, having pushed
    one value for each remaining pair of consecutive samples. *)
Lemma orientation_loop_spec pts :
  1 <= size pts <= PTRDIFF_MAX →
  ∀ fuel i a b c d acc,
    0 <= i <= size pts - 1 → size pts - 1 - i <= Z.of_nat fuel →
    ∃ vals,
      orientation_loop atan2 fuel pts i [a; b] [c; d] acc = mret (acc ++ vals) ∧
      Z.of_nat (length vals) = size pts - 1 - i ∧
      ∀ (j : nat) p q,
        pts !! (Z.to_nat i + j)%nat = Some p →
        pts !! (Z.to_nat i + j + 1)%nat = Some q →
        vals !! j = Some (yaw_between atan2 p q).
Proof.
  intros Hsize. pose proof (size_t_sub_one _ Hsize) as Hbound.
  induction fuel as [|fuel IH]; intros i a b c d acc Hi Hfuel.
  - exists []. split_and!; [|simpl; lia|].
    + rewrite app_nil_r. apply orientation_loop_exit. rewrite Hbound.
      apply Z.ltb_ge. lia.
    + intros j p q _ Hq. apply lookup_lt_Some in Hq. unfold size in *. lia.
  - destruct (Z.ltb_spec i (size pts - 1)) as [Hlt|Hge].
    + destruct (size_lookup pts i) as [p Hp]; [lia|].
      destruct (size_lookup pts (i + 1)) as [q Hq]; [lia|].
      rewrite <- Hbound in Hlt. loop_turn orientation_loop_step Hp Hq.
      rewrite calculate_yaw_pair, bind_ret.
      edestruct (IH (i + 1)) as [vals [Hloop [Hlen Hvals]]]; [lia|lia|].
      rewrite Hloop. exists (yaw_between atan2 p q :: vals). split_and!.
      * unfold push_back. by rewrite <- app_assoc.
      * simpl length. lia.
      * intros [|j] p' q' Hp' Hq'.
        -- rewrite Nat.add_0_r in Hp', Hq'.
           replace (Z.to_nat i + 1)%nat with (Z.to_nat (i + 1)) in Hq' by lia.
           simpl. congruence.
        -- simpl. apply Hvals.
           ++ rewrite <- Hp'. f_equal. lia.
           ++ rewrite <- Hq'. f_equal. lia.
    + exists []. split_and!; [|simpl; lia|].
      * rewrite app_nil_r. apply orientation_loop_exit. rewrite Hbound.
        by apply Z.ltb_ge.
      * intros j p q _ Hq. apply lookup_lt_Some in Hq. unfold size in *. lia.
Qed.

Lemma curvature_loop_spec pts :
  1 <= size pts <= PTRDIFF_MAX →
  ∀ fuel i a b c d acc,
    0 <= i <= size pts - 1 → size pts - 1 - i <= Z.of_nat fuel →
    ∃ vals,
      curvature_loop atan2 sin fuel pts i [a; b] [c; d] acc = mret (acc ++ vals) ∧
      Z.of_nat (length vals) = size pts - 1 - i ∧
      ∀ (j : nat) p q,
        pts !! (Z.to_nat i + j)%nat = Some p →
        pts !! (Z.to_nat i + j + 1)%nat = Some q →
        vals !! j = Some (curvature_between atan2 sin p q).
Proof.
  intros Hsize. pose proof (size_t_sub_one _ Hsize) as Hbound.
  induction fuel as [|fuel IH]; intros i a b c d acc Hi Hfuel.
  - exists []. split_and!; [|simpl; lia|].
    + rewrite app_nil_r. apply curvature_loop_exit. rewrite Hbound.
      apply Z.ltb_ge. lia.
    + intros j p q _ Hq. apply lookup_lt_Some in Hq. unfold size in *. lia.
  - destruct (Z.ltb_spec i (size pts - 1)) as [Hlt|Hge].
    + destruct (size_lookup pts i) as [p Hp]; [lia|].
      destruct (size_lookup pts (i + 1)) as [q Hq]; [lia|].
      rewrite <- Hbound in Hlt. loop_turn curvature_loop_step Hp Hq.
      rewrite calculate_curvature_pair, bind_ret.
      edestruct (IH (i + 1)) as [vals [Hloop [Hlen Hvals]]]; [lia|lia|].
      rewrite Hloop. exists (curvature_between atan2 sin p q :: vals). split_and!.
      * unfold push_back. by rewrite <- app_assoc.
      * simpl length. lia.
      * intros [|j] p' q' Hp' Hq'.
        -- rewrite Nat.add_0_r in Hp', Hq'.
           replace (Z.to_nat i + 1)%nat with (Z.to_nat (i + 1)) in Hq' by lia.
           simpl. congruence.
        -- simpl. apply Hvals.
           ++ rewrite <- Hp'. f_equal. lia.
           ++ rewrite <- Hq'. f_equal. lia.
    + exists []. split_and!; [|simpl; lia|].
      * rewrite app_nil_r. apply curvature_loop_exit. rewrite Hbound.
        by apply Z.ltb_ge.
      * intros j p q _ Hq. apply lookup_lt_Some in Hq. unfold size in *. lia.
Qed.

Lemma pad_last (n : nat) (vals : list float) :
  (2 ≤ n)%nat → Z.of_nat (length vals) = Z.of_nat n - 1 - 0 →
  returns_padded n (v ← back vals; mret (push_back vals v)).
Proof.
  intros Hn Hlen. destruct (snoc_of_length vals) as [front [v ->]]; [lia|].
  rewrite back_snoc, bind_ret.
  exists front, v. unfold push_back. rewrite <- app_assoc. split; [done|].
  rewrite length_app in *. simpl in *. lia.
Qed.

End Shape.

(** C3, as the code has it: for every vector of at least two sampling
    points, the yaw sequence and the curvature sequence are returned,
    each is as long as the sampling points, and each ends with the same
    value twice: the last element is the second-to-last. *)
Theorem from_fit_padded (atan2 : float → float → float) (sin : float → float)
    (curve : spline) (sampling_points : list BasicPoint2d) :
  is_vector sampling_points → (2 ≤ length sampling_points)%nat →
  returns_padded (length sampling_points)
    (compute_orientation_from_fit atan2 curve sampling_points) ∧
  returns_padded (length sampling_points)
    (compute_curvature_from_fit atan2 sin curve sampling_points).
Proof.
  intros Hvec Hlen.
  assert (Hsize : 1 <= size sampling_points <= PTRDIFF_MAX).
  { unfold is_vector, size in *. lia. }
  split.
  - unfold compute_orientation_from_fit.
    destruct (orientation_loop_spec atan2 sampling_points Hsize
                (S (length sampling_points)) 0 0 0 0 0 []) as [vals [-> [Hvals _]]];
      [lia | unfold size; lia |].
    rewrite bind_ret. apply pad_last; [done | exact Hvals].
  - unfold compute_curvature_from_fit.
    destruct (curvature_loop_spec atan2 sin sampling_points Hsize
                (S (length sampling_points)) 0 0 0 0 0 []) as [vals [-> [Hvals _]]];
      [lia | unfold size; lia |].
    rewrite bind_ret.
    destruct (pad_last (length sampling_points) vals Hlen Hvals)
      as [front [v [Hres Hfront]]].
    exists front, v. split; [|done].
    rewrite (bind_result_ok (ROS_WARN_STREAM _) _ tt) by done. exact Hres.
Qed.

Lemma from_fit_padded_witness :
  returns_padded 3
    (compute_orientation_from_fit atan2_on_axes default_spline
       [mkPoint 0 0; mkPoint 1 0; mkPoint 2 0]) ∧
  returns_padded 3
    (compute_curvature_from_fit atan2_on_axes sin_on_axes default_spline
       [mkPoint 0 0; mkPoint 1 0; mkPoint 2 0]).
Proof.
  apply (from_fit_padded atan2_on_axes sin_on_axes default_spline
           [mkPoint 0 0; mkPoint 1 0; mkPoint 2 0]).
  - by vm_compute.
  - simpl. lia.
Defined.

(** What the sequences hold: the value at sample [i] is the one
    computed from sample [i] and its successor. *)
Lemma yaw_sequence_values (atan2 : float → float → float) (curve : spline)
    (sampling_points : list BasicPoint2d) :
  is_vector sampling_points → (2 ≤ length sampling_points)%nat →
  ∃ ys,
    compute_orientation_from_fit atan2 curve sampling_points = mret ys ∧
    ∀ (i : nat) p q,
      sampling_points !! i = Some p → sampling_points !! (i + 1)%nat = Some q →
      ys !! i = Some (yaw_between atan2 p q).
Proof.
  intros Hvec Hlen.
  assert (Hsize : 1 <= size sampling_points <= PTRDIFF_MAX).
  { unfold is_vector, size in *. lia. }
  unfold compute_orientation_from_fit.
  destruct (orientation_loop_spec atan2 sampling_points Hsize
              (S (length sampling_points)) 0 0 0 0 0 [])
    as [vals [-> [Hvals Hval]]]; [lia | unfold size; lia |].
  rewrite bind_ret. simpl app.
  destruct (snoc_of_length vals) as [front [v ->]]; [unfold size in *; lia|].
  rewrite back_snoc, bind_ret. eexists. split; [done|].
  intros i p q Hp Hq. unfold push_back. apply lookup_app_l_Some. by eapply Hval.
Qed.

Lemma curvature_sequence_values (atan2 : float → float → float) (sin : float → float)
    (curve : spline) (sampling_points : list BasicPoint2d) :
  is_vector sampling_points → (2 ≤ length sampling_points)%nat →
  ∃ ys,
    result (compute_curvature_from_fit atan2 sin curve sampling_points) = Ok ys ∧
    ∀ (i : nat) p q,
      sampling_points !! i = Some p → sampling_points !! (i + 1)%nat = Some q →
      ys !! i = Some (curvature_between atan2 sin p q).
Proof.
  intros Hvec Hlen.
  assert (Hsize : 1 <= size sampling_points <= PTRDIFF_MAX).
  { unfold is_vector, size in *. lia. }
  unfold compute_curvature_from_fit.
  destruct (curvature_loop_spec atan2 sin sampling_points Hsize
              (S (length sampling_points)) 0 0 0 0 0 [])
    as [vals [-> [Hvals Hval]]]; [lia | unfold size; lia |].
  rewrite (bind_result_ok (ROS_WARN_STREAM _) _ tt) by done.
  rewrite bind_ret. simpl app.
  destruct (snoc_of_length vals) as [front [v ->]]; [unfold size in *; lia|].
  rewrite back_snoc, bind_ret. eexists. split; [done|].
  intros i p q Hp Hq. unfold push_back. apply lookup_app_l_Some. by eapply Hval.
Qed.

Lemma undefined_not_aligned (n : nat) (m : M (list float)) :
  result m = Undefined → ¬ returns_aligned n m.
Proof. intros H [ys [Hys _]]. congruence. Qed.

(** The claim C3 as stated fails on the empty sequence and on a
    sequence of one sampling point: neither call returns a sequence,
    the behaviour is undefined (an out-of-range read of the first
    sample, the last element of an empty vector). *)
Lemma from_fit_short_input :
  ¬ returns_aligned 0 (compute_orientation_from_fit atan2_on_axes default_spline []) ∧
  ¬ returns_aligned 0
      (compute_curvature_from_fit atan2_on_axes sin_on_axes default_spline []) ∧
  ¬ returns_aligned 1
      (compute_orientation_from_fit atan2_on_axes default_spline [mkPoint 0 0]) ∧
  ¬ returns_aligned 1
      (compute_curvature_from_fit atan2_on_axes sin_on_axes default_spline [mkPoint 0 0]).
Proof. repeat split; by apply undefined_not_aligned. Qed.

(** ** Curvature values *)

Section Values.

Variable atan2 : float → float → float.
Variable sin : float → float.

Local Open Scope float_scope.

(** The curvature sequence of two sampling points, as the code computes
    it: the second term of the chord subtracts the x-coordinate of the
    next sample from the y-coordinate of the current one. *)
Lemma compute_curvature_two_points (curve : spline) (p q : BasicPoint2d) :
  compute_curvature_from_fit atan2 sin curve [p; q]
  = let dist := sqrt (pow2 (pt_x p - pt_x q) + pow2 (pt_y p - pt_x q)) in
    let angle := atan2 (pt_y q - pt_y p) (pt_x q - pt_x p) in
    let k := fabs (std_min (1 / (0.5 * (dist / sin angle))) 100000) in
    (Ok [k; k], [[Str "Computing Curvatures"]]).
Proof. destruct p, q. reflexivity. Qed.

(** C1, where the code departs from it: from (0,2) to (0,6), a step of
    length 4 along the y-axis, the code takes the chord to be 2 and
    returns curvature 1, while the curvature of the claim, with the
    Euclidean chord 4, is 0.5. *)
Theorem curvature_chord_mixes_coordinates (curve : spline) :
  sin (atan2 4 0) = 1 →
  compute_curvature_from_fit atan2 sin curve [mkPoint 0 2; mkPoint 0 6]
  = (Ok [1; 1], [[Str "Computing Curvatures"]]) ∧
  stated_curvature atan2 sin (mkPoint 0 2) (mkPoint 0 6) = 0.5.
Proof.
  intros Hsin. split.
  - rewrite compute_curvature_two_points. cbv. rewrite Hsin. reflexivity.
  - cbv. rewrite Hsin. reflexivity.
Qed.

(** C2, where the code departs from it: two equal consecutive sampling
    points give NaN (the radius is 0/0), and a short step in the
    direction of decreasing y gives a value above the clamp, since the
    absolute value is taken after the minimum with 100000. *)
Theorem curvature_leaves_clamp (curve : spline) :
  atan2 0 0 = 0 → sin 0 = 0 → sin (atan2 (-0x1p-20) 0) = -1 →
  (compute_curvature_from_fit atan2 sin curve [mkPoint 0 0; mkPoint 0 0]
   = (Ok [nan; nan], [[Str "Computing Curvatures"]]) ∧
   within_clamp nan = false) ∧
  (compute_curvature_from_fit atan2 sin curve [mkPoint 0 0x1p-20; mkPoint 0 0]
   = (Ok [2097152; 2097152], [[Str "Computing Curvatures"]]) ∧
   within_clamp 2097152 = false).
Proof.
  intros Hatan Hsin0 Hsin. repeat split.
  - rewrite compute_curvature_two_points. cbv. rewrite Hatan, Hsin0. reflexivity.
  - rewrite compute_curvature_two_points. cbv. rewrite Hsin. reflexivity.
Qed.

End Values.

Lemma curvature_chord_mixes_coordinates_witness :
  compute_curvature_from_fit atan2_on_axes sin_on_axes default_spline
    [mkPoint 0 2; mkPoint 0 6]
  = (Ok [1%float; 1%float], [[Str "Computing Curvatures"]]) ∧
  stated_curvature atan2_on_axes sin_on_axes (mkPoint 0 2) (mkPoint 0 6) = 0.5%float.
Proof.
  apply (curvature_chord_mixes_coordinates atan2_on_axes sin_on_axes default_spline).
  reflexivity.
Defined.

Lemma curvature_leaves_clamp_witness :
  (compute_curvature_from_fit atan2_on_axes sin_on_axes default_spline
     [mkPoint 0 0; mkPoint 0 0]
   = (Ok [nan; nan], [[Str "Computing Curvatures"]]) ∧
   within_clamp nan = false) ∧
  (compute_curvature_from_fit atan2_on_axes sin_on_axes default_spline
     [mkPoint 0 0x1p-20; mkPoint 0 0]
   = (Ok [2097152%float; 2097152%float], [[Str "Computing Curvatures"]]) ∧
   within_clamp 2097152 = false).
Proof.
  apply (curvature_leaves_clamp atan2_on_axes sin_on_axes default_spline);
    reflexivity.
Defined.

(** ** Binary64 arithmetic: order *)
Ltac compare_cases :=
  repeat match goal with
  | H : context [Z.compare ?a ?b] |- _ => destruct (Z.compare_spec a b)
  | |- context [Z.compare ?a ?b] => destruct (Z.compare_spec a b)
  | H : context [Pos.compare_cont Eq ?a ?b] |- _ =>
      change (Pos.compare_cont Eq a b) with (Pos.compare a b) in *;
      destruct (Pos.compare_spec a b)
  | |- context [Pos.compare_cont Eq ?a ?b] =>
      change (Pos.compare_cont Eq a b) with (Pos.compare a b) in *;
      destruct (Pos.compare_spec a b)
  end.

Ltac sf_cases x := destruct x as [[]|[]| |[] ? ?].

Lemma SFltb_SFleb x y : SFltb x y = true → SFleb x y = true.
Proof. unfold SFltb, SFleb. by destruct (SFcompare x y) as [[]|]. Qed.

Lemma SFleb_refl x : x ≠ S754_nan → SFleb x x = true.
Proof.
  intros Hx. unfold SFleb. sf_cases x; simpl; try done;
    rewrite Z.compare_refl, Pos.compare_cont_refl; done.
Qed.

Lemma SFleb_total x y :
  x ≠ S754_nan → y ≠ S754_nan → SFltb x y = false → SFleb y x = true.
Proof.
  intros Hx Hy. unfold SFltb, SFleb.
  sf_cases x; sf_cases y; simpl; try done; compare_cases; simpl; try done; try lia.
Qed.

Lemma SFleb_trans x y z : SFleb x y = true → SFleb y z = true → SFleb x z = true.
Proof.
  unfold SFleb.
  sf_cases x; sf_cases y; sf_cases z; simpl; try done;
    intros Hxy Hyz; compare_cases; simpl in *; try done; try lia.
Qed.

Lemma SFltb_SFleb_trans x y z : SFltb x y = true → SFleb y z = true → SFltb x z = true.
Proof.
  unfold SFleb, SFltb.
  sf_cases x; sf_cases y; sf_cases z; simpl; try done;
    intros Hxy Hyz; compare_cases; simpl in *; try done; try lia.
Qed.

Lemma SFleb_SFltb_trans x y z : SFleb x y = true → SFltb y z = true → SFltb x z = true.
Proof.
  unfold SFleb, SFltb.
  sf_cases x; sf_cases y; sf_cases z; simpl; try done;
    intros Hxy Hyz; compare_cases; simpl in *; try done; try lia.
Qed.

Lemma SFltb_irrefl x : SFltb x x = false.
Proof.
  unfold SFltb. sf_cases x; simpl; try done;
    by rewrite Z.compare_refl, Pos.compare_cont_refl.
Qed.

Lemma SFleb_false_SFltb x y :
  x ≠ S754_nan → y ≠ S754_nan → SFleb x y = false → SFltb y x = true.
Proof.
  intros Hx Hy. unfold SFltb, SFleb.
  sf_cases x; sf_cases y; simpl; try done; compare_cases; simpl; try done; try lia.
Qed.

Lemma SFltb_infinity x : SFltb (S754_infinity false) x = false.
Proof. unfold SFltb. by sf_cases x. Qed.


Lemma is_nan_spec (a : float) : is_nan a = false ↔ Prim2SF a ≠ S754_nan.
Proof.
  unfold is_nan. rewrite FloatAxioms.eqb_spec. unfold SFeqb. split.
  - intros H Hnan. rewrite Hnan in H. done.
  - intros H. pose proof (SFleb_refl _ H) as Hle. unfold SFleb in Hle.
    destruct (Prim2SF a) as [[]|[]| |[] m e]; simpl in *; try done;
      rewrite Z.compare_refl, Pos.compare_cont_refl; done.
Qed.

Lemma ltb_leb (a b : float) : (a <? b)%float = true → (a <=? b)%float = true.
Proof. rewrite FloatAxioms.ltb_spec, FloatAxioms.leb_spec. apply SFltb_SFleb. Qed.

Lemma leb_refl (a : float) : is_nan a = false → (a <=? a)%float = true.
Proof. rewrite is_nan_spec, FloatAxioms.leb_spec. apply SFleb_refl. Qed.

Lemma nlt_leb (a b : float) :
  is_nan a = false → is_nan b = false → (a <? b)%float = false → (b <=? a)%float = true.
Proof. rewrite !is_nan_spec, FloatAxioms.ltb_spec, FloatAxioms.leb_spec. apply SFleb_total. Qed.

Lemma leb_trans (a b c : float) :
  (a <=? b)%float = true → (b <=? c)%float = true → (a <=? c)%float = true.
Proof. rewrite !FloatAxioms.leb_spec. apply SFleb_trans. Qed.

Lemma ltb_leb_trans (a b c : float) :
  (a <? b)%float = true → (b <=? c)%float = true → (a <? c)%float = true.
Proof. rewrite !FloatAxioms.ltb_spec, FloatAxioms.leb_spec. apply SFltb_SFleb_trans. Qed.

Lemma ltb_not_nan (a b : float) : (a <? b)%float = true → is_nan a = false.
Proof.
  rewrite FloatAxioms.ltb_spec, is_nan_spec. intros H Hnan. rewrite Hnan in H. done.
Qed.

Lemma ltb_trans (a b c : float) :
  (a <? b)%float = true → (b <? c)%float = true → (a <? c)%float = true.
Proof. intros Hab Hbc. eapply ltb_leb_trans; [exact Hab|by apply ltb_leb]. Qed.

Lemma leb_ltb_trans (a b c : float) :
  (a <=? b)%float = true → (b <? c)%float = true → (a <? c)%float = true.
Proof. rewrite !FloatAxioms.ltb_spec, FloatAxioms.leb_spec. apply SFleb_SFltb_trans. Qed.

Lemma ltb_irrefl (a : float) : (a <? a)%float = false.
Proof. rewrite FloatAxioms.ltb_spec. apply SFltb_irrefl. Qed.

Lemma nle_ltb (a b : float) :
  is_nan a = false → is_nan b = false → (a <=? b)%float = false → (b <? a)%float = true.
Proof.
  rewrite !is_nan_spec, FloatAxioms.ltb_spec, FloatAxioms.leb_spec.
  apply SFleb_false_SFltb.
Qed.

Lemma infinity_not_below (a : float) : (infinity <? a)%float = false.
Proof.
  rewrite FloatAxioms.ltb_spec.
  assert (Hinf : Prim2SF infinity = S754_infinity false) by (vm_compute; reflexivity).
  rewrite Hinf. apply SFltb_infinity.
Qed.

(** ** Binary64 arithmetic: mantissa digits and rounding *)
Lemma digits2_pos_size (p : positive) : digits2_pos p = Pos.size p.
Proof. induction p; simpl; congruence. Qed.

Lemma Zdigits2_log2 (n : Z) : 0 < n → Zdigits2 n = Z.log2 n + 1.
Proof.
  destruct n as [|p|p]; try lia. intros _. simpl.
  rewrite digits2_pos_size. destruct p; simpl; lia.
Qed.

Lemma Zdigits2_nonneg (n : Z) : 0 <= Zdigits2 n.
Proof. destruct n; simpl; lia. Qed.

Lemma Zdigits2_mono (a b : Z) : 0 <= a <= b → Zdigits2 a <= Zdigits2 b.
Proof.
  intros [Ha Hab]. destruct (Z.eq_dec a 0) as [->|Hne].
  - apply Zdigits2_nonneg.
  - rewrite !Zdigits2_log2 by lia. pose proof (Z.log2_le_mono a b Hab). lia.
Qed.

Lemma Zdigits2_succ (a : Z) : 0 <= a → Zdigits2 (a + 1) <= Zdigits2 a + 1.
Proof.
  intros Ha. destruct (Z.eq_dec a 0) as [->|Hne]; [simpl; lia|].
  rewrite !Zdigits2_log2 by lia.
  pose proof (Z.log2_succ_le a). unfold Z.succ in *. lia.
Qed.

Lemma Zdigits2_shiftl (a s : Z) : 0 < a → 0 <= s → Zdigits2 (Z.shiftl a s) = Zdigits2 a + s.
Proof.
  intros Ha Hs. assert (0 < Z.shiftl a s).
  { rewrite Z.shiftl_mul_pow2 by done. apply Z.mul_pos_pos; [done|]. by apply Z.pow_pos_nonneg. }
  rewrite !Zdigits2_log2 by lia. rewrite Z.log2_shiftl by lia. lia.
Qed.

Lemma Zpos_lt_pow_digits (m : positive) : Zpos m < 2 ^ Zpos (digits2_pos m).
Proof.
  rewrite digits2_pos_size. pose proof (Pos.size_gt m) as H.
  apply Pos2Z.pos_lt_pos in H. by rewrite Pos2Z.inj_pow in H.
Qed.

(** Rounding keeps the mantissa non-negative and adds at most one
    binary digit to it; the exponent it yields is bounded. *)

Lemma shr_1_m (mrs : shr_record) :
  0 <= shr_m mrs → 0 <= shr_m (shr_1 mrs) <= shr_m mrs.
Proof.
  destruct mrs as [m r s]. simpl. intros Hm.
  destruct m as [|[p|p|]|p]; simpl; lia.
Qed.

Lemma iter_shr_1_m (p : positive) (mrs : shr_record) :
  0 <= shr_m mrs → 0 <= shr_m (SpecFloat.iter_pos shr_1 p mrs) <= shr_m mrs.
Proof.
  revert mrs. induction p as [p IH|p IH|]; intros mrs Hm; simpl.
  - pose proof (shr_1_m mrs Hm) as H1.
    pose proof (IH (shr_1 mrs) ltac:(lia)) as H2.
    pose proof (IH (SpecFloat.iter_pos shr_1 p (shr_1 mrs)) ltac:(lia)). lia.
  - pose proof (IH mrs Hm) as H1.
    pose proof (IH (SpecFloat.iter_pos shr_1 p mrs) ltac:(lia)). lia.
  - by apply shr_1_m.
Qed.

Lemma shr_record_of_loc_m (m : Z) (l : location) : shr_m (shr_record_of_loc m l) = m.
Proof. by destruct l as [|[]]. Qed.

Lemma shr_fexp_bounds (m e : Z) (l : location) :
  0 <= m →
  0 <= shr_m (fst (shr_fexp prec emax m e l)) <= m ∧
  snd (shr_fexp prec emax m e l) <= Z.max (Z.max e (Zdigits2 m + e - 53)) (-1074).
Proof.
  intros Hm. unfold shr_fexp, shr.
  assert (Hfexp : fexp prec emax (Zdigits2 m + e) = Z.max (Zdigits2 m + e - 53) (-1074)).
  { reflexivity. }
  rewrite Hfexp.
  pose proof (shr_record_of_loc_m m l) as Hrec.
  destruct (Z.max (Zdigits2 m + e - 53) (-1074) - e) as [|p|p] eqn:Hn; simpl.
  - rewrite Hrec. lia.
  - pose proof (iter_shr_1_m p (shr_record_of_loc m l)) as Hit.
    rewrite Hrec in Hit. lia.
  - rewrite Hrec. lia.
Qed.

Lemma round_nearest_even_bounds (m : Z) (l : location) :
  0 <= m → m <= round_nearest_even m l <= m + 1.
Proof. intros Hm. destruct l as [|[]]; simpl; try lia. destruct (Z.even m); lia. Qed.

(** A rounded value with a non-negative mantissa of at most [D] binary
    digits is never NaN, and when it is finite its exponent is bounded. *)
Lemma binary_round_aux_bounds (s : bool) (m e : Z) (l : location) (D : Z) :
  0 <= m → Zdigits2 m <= D →
  match binary_round_aux prec emax s m e l with
  | S754_nan => False
  | S754_finite s' _ e' => s' = s ∧ e' <= Z.max e (-1074) + Z.max 0 (D - 53) + Z.max 0 (D - 52)
  | S754_zero s' | S754_infinity s' => s' = s
  end.
Proof.
  intros Hm HD. unfold binary_round_aux.
  pose proof (shr_fexp_bounds m e l Hm) as [Hm1 He1].
  destruct (shr_fexp prec emax m e l) as [mrs1 e1]. simpl in Hm1, He1.
  set (m2 := round_nearest_even (shr_m mrs1) (loc_of_shr_record mrs1)).
  pose proof (round_nearest_even_bounds (shr_m mrs1) (loc_of_shr_record mrs1)
                ltac:(lia)) as Hm2. fold m2 in Hm2.
  pose proof (shr_fexp_bounds m2 e1 loc_Exact ltac:(lia)) as [Hm3 He3].
  destruct (shr_fexp prec emax m2 e1 loc_Exact) as [mrs3 e3]. simpl in Hm3, He3.
  assert (Zdigits2 m2 <= D + 1).
  { pose proof (Zdigits2_mono m2 (shr_m mrs1 + 1) ltac:(lia)).
    pose proof (Zdigits2_succ (shr_m mrs1) ltac:(lia)).
    pose proof (Zdigits2_mono (shr_m mrs1) m ltac:(lia)). lia. }
  destruct (shr_m mrs3) as [|p|p]; [done| |lia].
  destruct (e3 <=? emax - prec); [|done]. split; [done|]. lia.
Qed.

(** Valid finite floats and the square root. *)
Lemma bounded_inv (m : positive) (e : Z) :
  bounded prec emax m e = true → Zpos (digits2_pos m) <= 53 ∧ e <= 971.
Proof.
  unfold bounded, canonical_mantissa. intros H.
  apply andb_prop in H as [Hc He]. apply Z.eqb_eq in Hc. apply Z.leb_le in He.
  change (fexp prec emax (Zpos (digits2_pos m) + e))
    with (Z.max (Zpos (digits2_pos m) + e - 53) (-1074)) in Hc.
  change (emax - prec) with 971 in He. lia.
Qed.

Lemma SFsqrt_core_bounds (m : positive) (e : Z) :
  Zpos (digits2_pos m) <= 53 → e <= 971 →
  let '(q, e', l) := SFsqrt_core_binary prec emax (Zpos m) e in
  0 <= q ∧ Zdigits2 q <= 160 ∧ e' <= 485.
Proof.
  intros Hd He. unfold SFsqrt_core_binary.
  set (d := Zdigits2 (Zpos m)). assert (Hdd : d = Zpos (digits2_pos m)) by done.
  change (fexp prec emax (Z.div2 (d + e + 1)))
    with (Z.max (Z.div2 (d + e + 1) - 53) (-1074)).
  rewrite !Z.div2_div.
  set (e' := Z.min (Z.max ((d + e + 1) / 2 - 53) (-1074)) (e / 2)).
  assert (He' : e' <= 485 ∧ e - 2 * e' <= 107).
  { unfold e'. pose proof (Z.div_mod (d + e + 1) 2 ltac:(lia)).
    pose proof (Z.mod_pos_bound (d + e + 1) 2 ltac:(lia)).
    pose proof (Z.div_mod e 2 ltac:(lia)).
    pose proof (Z.mod_pos_bound e 2 ltac:(lia)). lia. }
  set (m' := match e - 2 * e' with Z0 => Zpos m | Zpos _ => Z.shiftl (Zpos m) (e - 2 * e') | Zneg _ => 0 end).
  assert (Hm' : 0 <= m' ∧ Zdigits2 m' <= 160).
  { unfold m'. destruct (e - 2 * e') as [|s|s] eqn:Hs.
    - fold d. lia.
    - split.
      + rewrite Z.shiftl_mul_pow2 by lia. apply Z.mul_nonneg_nonneg; [lia|].
        apply Z.pow_nonneg. lia.
      + rewrite Zdigits2_shiftl by lia. fold d. lia.
    - simpl. lia. }
  pose proof (Z.sqrtrem_sqrt m') as Hq.
  destruct (Z.sqrtrem m') as [q r]. simpl in Hq. subst q.
  pose proof (Z.sqrt_nonneg m').
  assert (Z.sqrt m' <= m').
  { destruct (Z.eq_dec m' 0) as [->|]; [done|]. apply Z.sqrt_le_lin. lia. }
  pose proof (Zdigits2_mono (Z.sqrt m') m' ltac:(lia)). lia.
Qed.

Lemma SFsqrt_exponent (x : spec_float) :
  valid_binary x = true →
  match SFsqrt prec emax x with
  | S754_finite _ _ e' => e' <= 700
  | _ => True
  end.
Proof.
  destruct x as [s|[]| |[] m e]; simpl; try done.
  intros Hv. apply bounded_inv in Hv as [Hd He].
  pose proof (SFsqrt_core_bounds m e Hd He) as Hcore.
  destruct (SFsqrt_core_binary prec emax (Zpos m) e) as [[q e'] l].
  destruct Hcore as (Hq & Hdq & He').
  pose proof (binary_round_aux_bounds false q e' l 160 Hq Hdq) as Hround.
  destruct (binary_round_aux prec emax false q e' l); try done. lia.
Qed.

(** A square root is never the largest finite double. *)
Lemma sqrt_not_DBL_MAX (x : float) : sqrt x ≠ DBL_MAX.
Proof.
  intros H. apply (f_equal Prim2SF) in H. rewrite sqrt_spec in H.
  pose proof (SFsqrt_exponent (Prim2SF x) (Prim2SF_valid x)) as Hexp.
  unfold SF64sqrt in H. fold prec emax in H. rewrite H in Hexp.
  vm_compute in Hexp. by apply Hexp.
Qed.

Lemma Zpos_lt_pow53 (m : positive) :
  Zpos (digits2_pos m) <= 53 → Zpos m < 9007199254740992.
Proof.
  intros Hd. pose proof (Zpos_lt_pow_digits m) as Hm.
  apply (Z.lt_le_trans _ _ _ Hm).
  change 9007199254740992 with (2 ^ 53).
  apply Z.pow_le_mono_r; [done|exact Hd].
Qed.
Lemma SFltb_max_false (sx : spec_float) (mmax : positive) :
  Zpos mmax = 9007199254740991 →
  valid_binary sx = true → sx ≠ S754_nan →
  SFltb sx (S754_finite false mmax 971) = false →
  sx = S754_finite false mmax 971 ∨ sx = S754_infinity false.
Proof.
  intros Hmmax Hv Hnan Hlt. unfold SFltb in Hlt.
  destruct sx as [[]|[]| |[] m e]; try discriminate Hlt.
  - by right.
  - by destruct Hnan.
  - apply bounded_inv in Hv as [Hd He]. apply Zpos_lt_pow53 in Hd.
    simpl in Hlt. compare_cases; try discriminate Hlt; try lia.
    left. by subst.
Qed.

Lemma not_below_DBL_MAX (x : float) :
  is_nan x = false → (x <? DBL_MAX)%float = false → x = DBL_MAX ∨ x = infinity.
Proof.
  rewrite is_nan_spec, FloatAxioms.ltb_spec. intros Hnan Hlt.
  assert (Hmax : Prim2SF DBL_MAX = S754_finite false 9007199254740991 971)
    by (vm_compute; reflexivity).
  assert (Hinf : Prim2SF infinity = S754_infinity false)
    by (vm_compute; reflexivity).
  rewrite Hmax in Hlt.
  destruct (SFltb_max_false _ _ eq_refl (Prim2SF_valid x) Hnan Hlt) as [H|H];
    [left|right]; apply Prim2SF_inj; congruence.
Qed.

(** ** Binary64 arithmetic: when a distance is a number *)

Lemma binary_round_aux_sign (s : bool) (m e : Z) (l : location) :
  0 <= m →
  match binary_round_aux prec emax s m e l with
  | S754_nan => False
  | S754_finite s' _ _ | S754_zero s' | S754_infinity s' => s' = s
  end.
Proof.
  intros Hm.
  pose proof (binary_round_aux_bounds s m e l (Zdigits2 m) Hm ltac:(lia)) as H.
  destruct (binary_round_aux prec emax s m e l); tauto.
Qed.

Lemma binary_normalize_not_nan (m e : Z) (s : bool) :
  binary_normalize prec emax m e s ≠ S754_nan.
Proof.
  unfold binary_normalize, binary_round. destruct m as [|p|p]; [done| |].
  - destruct (shl_align p e _) as [mz ez].
    pose proof (binary_round_aux_sign false (Zpos mz) ez loc_Exact ltac:(lia)) as H.
    intros Hnan. by rewrite Hnan in H.
  - destruct (shl_align p e _) as [mz ez].
    pose proof (binary_round_aux_sign true (Zpos mz) ez loc_Exact ltac:(lia)) as H.
    intros Hnan. by rewrite Hnan in H.
Qed.

Lemma SFmul_self_nonneg (x : spec_float) :
  x ≠ S754_nan → SFnonneg (SFmul prec emax x x).
Proof.
  intros Hx. destruct x as [[]|[]| |s m e]; simpl; try done.
  pose proof (binary_round_aux_sign (xorb s s) (Zpos (m * m)) (e + e) loc_Exact
                ltac:(lia)) as H.
  destruct (binary_round_aux _ _ _ _ _ _); simpl; try done;
    rewrite H; by destruct s.
Qed.

Lemma SFadd_nonneg (x y : spec_float) :
  SFnonneg x → SFnonneg y → SFnonneg (SFadd prec emax x y).
Proof.
  destruct x as [sx|sx| |sx mx ex]; destruct y as [sy|sy| |sy my ey];
    simpl; try done; intros -> ->; simpl; try done.
  unfold binary_normalize, binary_round.
  destruct (shl_align mx ex _) as [ma ea]. destruct (shl_align my ey _) as [mb eb].
  simpl. destruct (shl_align (ma + mb) _ _) as [mz ez].
  pose proof (binary_round_aux_sign false (Zpos mz) ez loc_Exact ltac:(lia)) as H.
  by destruct (binary_round_aux _ _ _ _ _ _).
Qed.

Lemma SFsqrt_core_nonneg (m e : Z) :
  let '(q, _, _) := SFsqrt_core_binary prec emax m e in 0 <= q.
Proof.
  unfold SFsqrt_core_binary.
  match goal with
  | |- context [Z.sqrtrem ?a] =>
      pose proof (Z.sqrtrem_sqrt a) as Hq; pose proof (Z.sqrt_nonneg a) as Hpos;
      destruct (Z.sqrtrem a) as [q r]
  end.
  simpl in Hq. by rewrite Hq.
Qed.

Lemma SFsqrt_nonneg (x : spec_float) :
  SFnonneg x → SFsqrt prec emax x ≠ S754_nan.
Proof.
  destruct x as [s|s| |s m e]; simpl; try done; intros ->; try done.
  pose proof (SFsqrt_core_nonneg (Zpos m) e) as Hq.
  destruct (SFsqrt_core_binary prec emax (Zpos m) e) as [[q e'] l].
  pose proof (binary_round_aux_sign false q e' l Hq) as H.
  intros Hnan. by rewrite Hnan in H.
Qed.

Lemma SFsub_finite_not_nan (x y : spec_float) :
  (∀ s, x ≠ S754_infinity s) → (∀ s, y ≠ S754_infinity s) →
  x ≠ S754_nan → y ≠ S754_nan → SFsub prec emax x y ≠ S754_nan.
Proof.
  intros Hx Hy Hxn Hyn.
  destruct x as [sx|sx| |sx mx ex]; destruct y as [sy|sy| |sy my ey];
    simpl; try done; try (by destruct (Hx sx)); try (by destruct (Hy sy)).
  - by destruct sx, sy.
  - apply binary_normalize_not_nan.
Qed.

(** The distance of two positions is a number as soon as the two
    coordinate differences are. *)
Lemma distance2d_not_nan (p q : BasicPoint2d) :
  is_nan (pt_x p - pt_x q)%float = false →
  is_nan (pt_y p - pt_y q)%float = false →
  is_nan (distance2d p q) = false.
Proof.
  unfold distance2d. rewrite !is_nan_spec. intros Hdx Hdy.
  rewrite sqrt_spec, add_spec, !mul_spec.
  apply SFsqrt_nonneg, SFadd_nonneg; by apply SFmul_self_nonneg.
Qed.

Lemma is_finite_spec (a : float) :
  is_finite a = true → Prim2SF a ≠ S754_nan ∧ ∀ s, Prim2SF a ≠ S754_infinity s.
Proof.
  unfold is_finite. intros H. apply negb_true_iff, orb_false_iff in H as [Hnan Hinf].
  apply is_nan_spec in Hnan. split; [done|]. intros s Hs.
  unfold is_infinity in Hinf. rewrite FloatAxioms.eqb_spec, abs_spec, Hs in Hinf.
  assert (Hi : Prim2SF infinity = S754_infinity false) by (vm_compute; reflexivity).
  rewrite Hi in Hinf. done.
Qed.

(** Positions with finite coordinates are at a distance that is a
    number. *)
Lemma distance2d_finite_not_nan (p q : BasicPoint2d) :
  is_finite (pt_x p) = true → is_finite (pt_y p) = true →
  is_finite (pt_x q) = true → is_finite (pt_y q) = true →
  is_nan (distance2d p q) = false.
Proof.
  intros Hpx Hpy Hqx Hqy.
  apply is_finite_spec in Hpx as [? ?], Hpy as [? ?], Hqx as [? ?], Hqy as [? ?].
  apply distance2d_not_nan; rewrite is_nan_spec, sub_spec;
    by apply SFsub_finite_not_nan.
Qed.

(** No distance is the largest finite double. *)
Lemma distance2d_not_DBL_MAX (p q : BasicPoint2d) : distance2d p q ≠ DBL_MAX.
Proof. apply sqrt_not_DBL_MAX. Qed.

(** ** getNearestPointIndex on a non-empty path *)

(** One more entry keeps the invariant of the scan. *)
Lemma nearest_inv_step (state : VehicleState) (seen : list PointSpeedPair)
    (p : PointSpeedPair) (min_distance : float) (best_index : Z) :
  nearest_inv state seen min_distance best_index →
  if (distance_to state p <? min_distance)%float
  then nearest_inv state (seen ++ [p]) (distance_to state p) (size seen)
  else nearest_inv state (seen ++ [p]) min_distance best_index.
Proof.
  intros Hinv.
  assert (Hsplit : ∀ j q, (seen ++ [p]) !! j = Some q →
                          seen !! j = Some q ∨ (j = length seen ∧ q = p)).
  { intros j q Hq. apply lookup_snoc_Some in Hq as [[_ Hq]|[-> ->]]; [by left|by right]. }
  destruct (distance_to state p <? min_distance)%float eqn:Hlt.
  - (* the entry is the new nearest one *)
    right. exists p.
    assert (Hsz : Z.to_nat (size seen) = length seen) by (unfold size; lia).
    rewrite !Hsz.
    assert (Hbelow : (distance_to state p <? DBL_MAX)%float = true).
    { destruct Hinv as [(-> & _ & _)|(pb & _ & _ & _ & Hm & _)]; [done|].
      by eapply ltb_trans. }
    assert (Hold : ∀ j q, seen !! j = Some q →
                          (distance_to state q <? min_distance)%float = false).
    { intros j q Hq.
      destruct Hinv as [(-> & _ & Hnone)|(pb & _ & _ & _ & _ & Hcl & _)].
      - apply Hnone. by eapply list_elem_of_lookup_2.
      - by eapply Hcl. }
    split_and!; [unfold size; lia|by apply list_lookup_middle|done|done| |].
    + intros j q Hq. apply Hsplit in Hq as [Hq|[_ ->]]; [|apply ltb_irrefl].
      destruct (distance_to state q <? distance_to state p)%float eqn:Hcloser; [|done].
      rewrite <- (Hold j q Hq). symmetry. by eapply ltb_trans.
    + intros j q Hq Hj. apply Hsplit in Hq as [Hq|[-> _]]; [|lia].
      destruct (distance_to state q <=? distance_to state p)%float eqn:Hclose; [|done].
      rewrite <- (Hold j q Hq). symmetry. by eapply leb_ltb_trans.
  - (* the nearest entry so far stays *)
    destruct Hinv as [(-> & -> & Hnone)|(pb & Hb & Hpb & Hd & Hm & Hcl & Hfirst)].
    + left. split_and!; [done|done|]. intros q Hq.
      apply elem_of_app in Hq as [Hq|Hq]; [by apply Hnone|].
      by apply list_elem_of_singleton in Hq as ->.
    + right. exists pb. split_and!; [done|by apply lookup_app_l_Some|done|done| |].
      * intros j q Hq. apply Hsplit in Hq as [Hq|[_ ->]]; [by eapply Hcl|done].
      * intros j q Hq Hj. apply Hsplit in Hq as [Hq|[-> _]]; [by eapply Hfirst|].
        apply lookup_lt_Some in Hpb. lia.
Qed.

(** The scan of the remaining entries returns and ends in the
    invariant for the whole path. *)
Lemma nearest_loop_spec (state : VehicleState) (rest : list PointSpeedPair) :
  ∀ seen min_distance best_index,
    size (seen ++ rest) <= INT_MAX →
    nearest_inv state seen min_distance best_index →
    ∃ min_distance' best_index',
      nearest_loop (mkPoint (X_pos_global state) (Y_pos_global state)) rest
                   min_distance (size seen) best_index
      = mret best_index' ∧
      nearest_inv state (seen ++ rest) min_distance' best_index'.
Proof.
  induction rest as [|p rest IH]; intros seen min_distance best_index Hsize Hinv.
  - exists min_distance, best_index. by rewrite app_nil_r.
  - rewrite cons_middle, app_assoc in Hsize |- *.
    pose proof (nearest_inv_step state seen p min_distance best_index Hinv) as Hstep.
    assert (Hnext : int_add (size seen) 1 = mret (size (seen ++ [p]))).
    { unfold size in *. rewrite !length_app in *. simpl length in *.
      rewrite int_add_in_range by (unfold INT_MIN; lia). f_equal. lia. }
    simpl nearest_loop. fold (distance_to state p).
    destruct (distance_to state p <? min_distance)%float;
      rewrite Hnext, bind_ret; by apply IH.
Qed.

(** C5: on a non-empty path, of at most [INT_MAX] entries so that the
    [int] counter stays in range, [getNearestPointIndex] returns an
    index of the path such that no entry of the path is closer to the
    vehicle than the entry at that index, and no entry at a smaller
    index is as close.  When every distance is a number, this is the
    claim in its own words: the entry at the returned index is at most
    as far from the vehicle as every entry of the path, and every entry
    at a smaller index is strictly farther, so that among the indices at
    the least distance the smallest is returned. *)
Theorem getNearestPointIndex_nearest (points : list PointSpeedPair)
    (state : VehicleState) :
  points ≠ [] → size points <= INT_MAX →
  ∃ (i : nat) (p : PointSpeedPair),
    getNearestPointIndex points state = mret (Z.of_nat i) ∧
    points !! i = Some p ∧
    (∀ j q, points !! j = Some q →
            (distance_to state q <? distance_to state p)%float = false) ∧
    (∀ j q, points !! j = Some q → (j < i)%nat →
            (distance_to state q <=? distance_to state p)%float = false) ∧
    ((∀ q, q ∈ points → is_nan (distance_to state q) = false) →
     (∀ j q, points !! j = Some q →
             (distance_to state p <=? distance_to state q)%float = true) ∧
     (∀ j q, points !! j = Some q → (j < i)%nat →
             (distance_to state p <? distance_to state q)%float = true)).
Proof.
  intros Hne Hsize.
  assert (Hrobust : ∃ (i : nat) (p : PointSpeedPair),
    getNearestPointIndex points state = mret (Z.of_nat i) ∧
    points !! i = Some p ∧
    (∀ j q, points !! j = Some q →
            (distance_to state q <? distance_to state p)%float = false) ∧
    (∀ j q, points !! j = Some q → (j < i)%nat →
            (distance_to state q <=? distance_to state p)%float = false)).
  { destruct (nearest_loop_spec state points [] DBL_MAX 0 Hsize)
      as (m & b & Hloop & Hinv).
    { left. split_and!; [done|done|]. intros q Hq. by apply elem_of_nil in Hq. }
    simpl in Hinv.
    destruct Hinv as [(_ & -> & Hnone)|(pb & Hb & Hpb & <- & _ & Hcl & Hfirst)].
    - (* no distance is below DBL_MAX: none is below another *)
      destruct points as [|p0 rest]; [done|].
      exists 0%nat, p0. split_and!; [exact Hloop|done| |intros; lia].
      intros j q Hq.
      destruct (distance_to state q <? distance_to state p0)%float eqn:Hcloser; [|done].
      apply list_elem_of_lookup_2 in Hq.
      destruct (not_below_DBL_MAX _ (ltb_not_nan _ _ Hcloser) (Hnone q Hq))
        as [Hmax|Hinf].
      + by apply distance2d_not_DBL_MAX in Hmax.
      + by rewrite Hinf, infinity_not_below in Hcloser.
    - exists (Z.to_nat b), pb. rewrite Z2Nat.id by done. by split_and!. }
  destruct Hrobust as (i & p & Hret & Hp & Hcl & Hfirst).
  exists i, p. split_and!; [done|done|done|done|]. intros Hnum.
  assert (Hpn : is_nan (distance_to state p) = false).
  { apply Hnum. by eapply list_elem_of_lookup_2. }
  split.
  - intros j q Hq. apply nlt_leb; [|done|by eapply Hcl].
    apply Hnum. by eapply list_elem_of_lookup_2.
  - intros j q Hq Hj. apply nle_ltb; [|done|by eapply Hfirst].
    apply Hnum. by eapply list_elem_of_lookup_2.
Qed.

Lemma getNearestPointIndex_nearest_witness :
  ∃ (i : nat) (p : PointSpeedPair),
    getNearestPointIndex sample_path sample_state = mret (Z.of_nat i) ∧
    sample_path !! i = Some p ∧
    (∀ j q, sample_path !! j = Some q →
            (distance_to sample_state q <? distance_to sample_state p)%float = false) ∧
    (∀ j q, sample_path !! j = Some q → (j < i)%nat →
            (distance_to sample_state q <=? distance_to sample_state p)%float = false) ∧
    ((∀ q, q ∈ sample_path → is_nan (distance_to sample_state q) = false) →
     (∀ j q, sample_path !! j = Some q →
             (distance_to sample_state p <=? distance_to sample_state q)%float = true) ∧
     (∀ j q, sample_path !! j = Some q → (j < i)%nat →
             (distance_to sample_state p <? distance_to sample_state q)%float = true)).
Proof.
  apply (getNearestPointIndex_nearest sample_path sample_state);
    [done | by vm_compute].
Defined.

(** ** The scenarios of the specification *)

(** A lane-following maneuver over a lane model that returns three
    points gives three pairs, each with the end speed of the maneuver. *)
Example maneuvers_to_points_scenario :
  maneuvers_to_points [sample_following] sample_world
  = mret [(mkPoint 0 0, 5%float); (mkPoint 1 0, 5%float); (mkPoint 2 0, 5%float)].
Proof. reflexivity. Qed.

(** Three sampling points on a straight line along the x-axis: the yaw
    is 0 everywhere, and so is the curvature, the radius being
    infinite. *)
Example straight_line_scenario :
  compute_orientation_from_fit atan2_on_axes default_spline
    [mkPoint 0 0; mkPoint 1 0; mkPoint 2 0]
  = mret [0%float; 0%float; 0%float] ∧
  compute_curvature_from_fit atan2_on_axes sin_on_axes default_spline
    [mkPoint 0 0; mkPoint 1 0; mkPoint 2 0]
  = (Ok [0%float; 0%float; 0%float], [[Str "Computing Curvatures"]]).
Proof. split; reflexivity. Qed.

(** The nearest entry of the sample path to the origin is the first. *)
Example nearest_scenario :
  getNearestPointIndex sample_path sample_state = mret 0 ∧
  getNearestPointIndex sample_path (mkVehicleState 3 3 0 0) = mret 3.
Proof. split; reflexivity. Qed.

(** * Further properties of the functions *)

(** ** maneuvers_to_points on lane-following maneuvers *)

Lemma foldl_push_back (speed : float) (geometry : list BasicPoint2d)
    (acc : list PointSpeedPair) :
  foldl (λ acc p, push_back acc (p, speed)) acc geometry
  = acc ++ map (λ p, (p, speed)) geometry.
Proof.
  revert acc. induction geometry as [|p geometry IH]; intros acc; simpl.
  - by rewrite app_nil_r.
  - rewrite IH. unfold push_back. by rewrite <- app_assoc.
Qed.

Lemma maneuvers_to_points_loop_following wm maneuvers acc :
  Forall (λ m, type m = LANE_FOLLOWING) maneuvers →
  maneuvers_to_points_loop wm maneuvers acc
  = mret (acc ++ concat (map (maneuver_points wm) maneuvers)).
Proof.
  intros Hall. revert acc.
  induction Hall as [|m rest Hm _ IH]; intros acc; simpl.
  - by rewrite app_nil_r.
  - rewrite Hm, Z.eqb_refl. simpl. rewrite IH, foldl_push_back.
    by rewrite <- app_assoc.
Qed.

(** X1: when every maneuver is a lane-following one,
    [maneuvers_to_points] returns normally, without diagnostics, the
    pairs of the maneuvers in their order: for each maneuver the
    positions of the lane geometry between its start and end distance
    (end points included), in the order of the lane model, each paired
    with the end speed of that maneuver. *)
Theorem maneuvers_to_points_following (maneuvers : list Maneuver) (wm : WorldModel) :
  Forall (λ m, type m = LANE_FOLLOWING) maneuvers →
  maneuvers_to_points maneuvers wm
  = mret (concat (map (maneuver_points wm) maneuvers)).
Proof.
  intros Hall. unfold maneuvers_to_points.
  by rewrite maneuvers_to_points_loop_following.
Qed.

Lemma maneuvers_to_points_following_witness :
  maneuvers_to_points [sample_following; sample_following] sample_world
  = mret (concat (map (maneuver_points sample_world)
                      [sample_following; sample_following])).
Proof.
  apply (maneuvers_to_points_following [sample_following; sample_following]
           sample_world).
  repeat constructor.
Defined.

Lemma maneuvers_to_points_cases (maneuvers : list Maneuver) :
  Forall (λ m, type m = LANE_FOLLOWING) maneuvers ∨
  ∃ m, m ∈ maneuvers ∧ type m ≠ LANE_FOLLOWING.
Proof.
  destruct (decide (Forall (λ m, type m = LANE_FOLLOWING) maneuvers)) as [H|H];
    [by left|right].
  apply not_Forall_Exists in H; [|apply _].
  apply Exists_exists in H as (m & Hin & Hm). by exists m.
Qed.

(** X2: a plan converted in two parts gives the same as the plan
    converted at once, failure included: the conversion of
    [first ++ second] is the conversion of [first] followed by the
    conversion of [second], with the two results appended; when either
    part throws, so does the whole and nothing is returned. *)
Theorem maneuvers_to_points_app (first second : list Maneuver) (wm : WorldModel) :
  maneuvers_to_points (first ++ second) wm
  = (a ← maneuvers_to_points first wm;
     b ← maneuvers_to_points second wm;
     mret (a ++ b)).
Proof.
  unfold maneuvers_to_points.
  destruct (maneuvers_to_points_cases first) as [H1|H1].
  - rewrite (maneuvers_to_points_loop_following wm first [] H1), bind_ret.
    destruct (maneuvers_to_points_cases second) as [H2|H2].
    + rewrite (maneuvers_to_points_loop_following wm second [] H2), bind_ret.
      rewrite maneuvers_to_points_loop_following by (by apply Forall_app).
      by rewrite map_app, concat_app.
    + rewrite (maneuvers_to_points_loop_throws wm second [] H2), bind_throw.
      apply maneuvers_to_points_loop_throws.
      destruct H2 as (m & Hin & Hm). exists m. split; [|done].
      apply elem_of_app. by right.
  - rewrite (maneuvers_to_points_loop_throws wm first [] H1), bind_throw.
    apply maneuvers_to_points_loop_throws.
    destruct H1 as (m & Hin & Hm). exists m. split; [|done].
    apply elem_of_app. by left.
Qed.

(** ** splitPointSpeedPairs and pointSpeedPairsToBasicPoints *)

Lemma split_loop_spec (points : list PointSpeedPair)
    (basic_points : list BasicPoint2d) (speeds : list float) :
  split_loop points basic_points speeds
  = (basic_points ++ map fst points, speeds ++ map snd points).
Proof.
  revert basic_points speeds.
  induction points as [|p points IH]; intros basic_points speeds; simpl.
  - by rewrite !app_nil_r.
  - rewrite IH. unfold push_back. by rewrite <- !app_assoc.
Qed.

Lemma basic_points_loop_spec (points : list PointSpeedPair)
    (basic_points : list BasicPoint2d) :
  basic_points_loop points basic_points = basic_points ++ map fst points.
Proof.
  revert basic_points. induction points as [|p points IH]; intros basic_points; simpl.
  - by rewrite app_nil_r.
  - rewrite IH. unfold push_back. by rewrite <- app_assoc.
Qed.

Lemma lookup_map {A B} (f : A → B) (l : list A) (i : nat) :
  map f l !! i = f <$> (l !! i).
Proof. revert i. induction l as [|a l IH]; intros [|i]; simpl; done. Qed.

Lemma zip_map_fst_snd {A B} (l : list (A * B)) : zip (map fst l) (map snd l) = l.
Proof. induction l as [|[a b] l IH]; simpl; [done|by rewrite IH]. Qed.

(** X3: [splitPointSpeedPairs] appends and does not clear: called with
    two vectors, it leaves what they held in place and pushes after it
    the positions of the entries on the first and their speeds on the
    second, in the order of the entries; both grow by the number of
    entries. *)
Theorem splitPointSpeedPairs_appends (points : list PointSpeedPair)
    (basic_points : list BasicPoint2d) (speeds : list float) :
  ∃ basic_points' speeds',
    splitPointSpeedPairs points (Some basic_points) (Some speeds)
    = mret (basic_points', speeds') ∧
    basic_points' = basic_points ++ map fst points ∧
    speeds' = speeds ++ map snd points ∧
    length basic_points' = (length basic_points + length points)%nat ∧
    length speeds' = (length speeds + length points)%nat.
Proof.
  eexists _, _. unfold splitPointSpeedPairs, reserve.
  rewrite split_loop_spec. split_and!; try done.
  - by rewrite length_app, length_map.
  - by rewrite length_app, length_map.
Qed.

(** X4: split after a fresh start and zipped again, the entries come
    back: on two empty vectors [splitPointSpeedPairs] gives two vectors
    as long as the path, whose elements at each index are the position
    and the speed of the entry at that index. *)
Theorem splitPointSpeedPairs_zip (points : list PointSpeedPair) :
  ∃ basic_points speeds,
    splitPointSpeedPairs points (Some []) (Some []) = mret (basic_points, speeds) ∧
    length basic_points = length points ∧
    length speeds = length points ∧
    zip basic_points speeds = points ∧
    ∀ i p, points !! i = Some p →
           basic_points !! i = Some (fst p) ∧ speeds !! i = Some (snd p).
Proof.
  eexists _, _. unfold splitPointSpeedPairs, reserve.
  rewrite split_loop_spec. simpl app. split_and!; try done.
  - by rewrite length_map.
  - by rewrite length_map.
  - apply zip_map_fst_snd.
  - intros i p Hp. rewrite !lookup_map. unfold PointSpeedPair in *. by rewrite Hp.
Qed.

(** X5: [pointSpeedPairsToBasicPoints] keeps the length and the order:
    its element at each index is the position of the entry at that
    index, and it is the first of the two vectors that
    [splitPointSpeedPairs] fills from empty ones. *)
Theorem pointSpeedPairsToBasicPoints_positions (points : list PointSpeedPair) :
  length (pointSpeedPairsToBasicPoints points) = length points ∧
  (∀ i, pointSpeedPairsToBasicPoints points !! i = fst <$> (points !! i)) ∧
  ∃ speeds,
    splitPointSpeedPairs points (Some []) (Some [])
    = mret (pointSpeedPairsToBasicPoints points, speeds).
Proof.
  unfold pointSpeedPairsToBasicPoints, splitPointSpeedPairs, reserve.
  rewrite basic_points_loop_spec, split_loop_spec. simpl app. split_and!.
  - by rewrite length_map.
  - intros i. by rewrite lookup_map.
  - by eexists.
Qed.

(** ** downsample_points: length, identity, composition, edge cases *)

Lemma exit_counter_le (len nth_point : Z) :
  0 <= len → 1 <= nth_point → exit_counter len nth_point <= len + nth_point - 1.
Proof.
  intros Hlen HN. unfold exit_counter.
  pose proof (Z.mul_div_le (len + nth_point - 1) nth_point ltac:(lia)). lia.
Qed.

(** The result of [downsample_points], for an empty input too. *)
Lemma downsample_points_lookup (points : list PointSpeedPair) (nth_point : Z) :
  1 <= nth_point <= INT_MAX → exit_counter (size points) nth_point <= INT_MAX →
  ∃ out,
    downsample_points points nth_point = mret out ∧
    ∀ k : nat, out !! k = points !! (k * Z.to_nat nth_point)%nat.
Proof.
  intros [HN HNmax] Hexit.
  assert (Hover : ∀ k, 0 <= k → k * nth_point < size points →
                       (k + 1) * nth_point <= INT_MAX).
  { intros k Hk Hlt. pose proof (exit_counter_bounds _ _ _ HN Hk Hlt). lia. }
  destruct (downsample_loop_spec points nth_point HN Hover
              (S (length points)) 0 []) as [out [Hloop Hout]];
    [lia|unfold INT_MAX; lia|unfold size; lia|].
  exists out. split.
  - unfold downsample_points, size_t_div.
    rewrite to_size_t_nonneg by (unfold SIZE_MODULUS, INT_MAX in *; lia).
    destruct (Z.eqb_spec nth_point 0) as [?|_]; [lia|].
    rewrite bind_ret. unfold reserve. exact Hloop.
  - intros k. rewrite Hout. f_equal. lia.
Qed.

Lemma lookup_multiples_length {A} (out points : list A) (n : nat) :
  (1 ≤ n)%nat → (∀ k : nat, out !! k = points !! (k * n)%nat) →
  Z.of_nat (length out) = kept (Z.of_nat (length points)) (Z.of_nat n).
Proof.
  intros Hn Hout. unfold kept.
  assert (Hend : (length points ≤ length out * n)%nat).
  { apply lookup_ge_None. rewrite <- Hout. by apply lookup_ge_None. }
  assert (Hlast : ∀ k, (k < length out)%nat → (k * n < length points)%nat).
  { intros k Hk. apply lookup_lt_is_Some. rewrite <- Hout.
    by apply lookup_lt_is_Some. }
  apply Z.div_unique with
    (r := Z.of_nat (length points) + Z.of_nat n - 1 - Z.of_nat n * Z.of_nat (length out));
    [|lia].
  left. destruct (length out) as [|l] eqn:Hl.
  - destruct points; simpl in *; lia.
  - specialize (Hlast l ltac:(lia)). nia.
Qed.

Lemma kept_le (len nth_point : Z) :
  0 <= len → 1 <= nth_point → kept len nth_point <= len.
Proof.
  intros Hlen HN. unfold kept. destruct (Z.eq_dec len 0) as [->|Hpos].
  - rewrite Z.div_small; lia.
  - apply Z.div_le_upper_bound; [lia|]. nia.
Qed.

(** The result of [downsample_points] and its size. *)
Lemma downsample_points_spec (points : list PointSpeedPair) (nth_point : Z) :
  1 <= nth_point <= INT_MAX → exit_counter (size points) nth_point <= INT_MAX →
  ∃ out,
    downsample_points points nth_point = mret out ∧
    (∀ k : nat, out !! k = points !! (k * Z.to_nat nth_point)%nat) ∧
    size out = kept (size points) nth_point.
Proof.
  intros HN Hexit.
  destruct (downsample_points_lookup points nth_point HN Hexit) as [out [Hret Hout]].
  exists out. split_and!; [done|done|]. unfold size.
  rewrite (lookup_multiples_length out points (Z.to_nat nth_point)); [|lia|done].
  f_equal. lia.
Qed.

(** X6: with a stride of at least 1 and no overflow of the counter,
    [downsample_points] keeps the rounded-up quotient of the length by
    the stride, which never exceeds the capacity [size / N + 1] that the
    function reserves, and never the length of the input. *)
Theorem downsample_points_length (points : list PointSpeedPair) (nth_point : Z) :
  1 <= nth_point <= INT_MAX → exit_counter (size points) nth_point <= INT_MAX →
  ∃ out,
    downsample_points points nth_point = mret out ∧
    size out = kept (size points) nth_point ∧
    size out <= size points / nth_point + 1 ∧
    size out <= size points.
Proof.
  intros HN Hexit.
  destruct (downsample_points_spec points nth_point HN Hexit)
    as (out & Hret & _ & Hlen).
  exists out. rewrite Hlen. split_and!; [done|done| |].
  - unfold kept.
    replace (size points + nth_point - 1)
      with (size points - 1 + 1 * nth_point) by lia.
    rewrite Z.div_add by lia.
    pose proof (Z.div_le_mono (size points - 1) (size points) nth_point
                  ltac:(lia) ltac:(lia)). lia.
  - apply kept_le; [unfold size|]; lia.
Qed.

Lemma downsample_points_length_witness :
  ∃ out,
    downsample_points sample_path 2 = mret out ∧
    size out = kept (size sample_path) 2 ∧
    size out <= size sample_path / 2 + 1 ∧
    size out <= size sample_path.
Proof.
  apply (downsample_points_length sample_path 2); by vm_compute.
Defined.

(** X7: stride 1 is the identity: on a path of fewer than [INT_MAX]
    entries [downsample_points] with stride 1 returns the path itself. *)
Theorem downsample_points_stride_one (points : list PointSpeedPair) :
  size points <= INT_MAX →
  downsample_points points 1 = mret points.
Proof.
  intros Hsize.
  destruct (downsample_points_lookup points 1) as [out [-> Hout]];
    [by vm_compute| |].
  - unfold exit_counter. rewrite Z.div_1_r. lia.
  - f_equal. apply list_eq. intros k. rewrite Hout. f_equal. simpl. lia.
Qed.

Lemma downsample_points_stride_one_witness :
  downsample_points sample_path 1 = mret sample_path.
Proof. apply (downsample_points_stride_one sample_path). by vm_compute. Defined.

(** X8: downsampling twice is downsampling once with the product of
    the strides: for strides N and M of at least 1, on a path whose size
    plus N * M fits an [int], the result of stride M on the result of
    stride N is the result of stride N * M. *)
Theorem downsample_points_twice (points : list PointSpeedPair) (n m : Z) :
  1 <= n → 1 <= m → size points + n * m <= INT_MAX →
  (once ← downsample_points points n; downsample_points once m)
  = downsample_points points (n * m).
Proof.
  intros Hn Hm Hfit.
  assert (Hsize : 0 <= size points) by (unfold size; lia).
  pose proof (exit_counter_le (size points) n Hsize Hn) as He1.
  pose proof (exit_counter_le (size points) (n * m) Hsize ltac:(nia)) as He3.
  destruct (downsample_points_spec points n) as (out1 & Hret1 & Hout1 & Hlen1);
    [nia|nia|].
  pose proof (kept_le (size points) n Hsize Hn) as Hle1. rewrite <- Hlen1 in Hle1.
  assert (Hsize1 : 0 <= size out1) by (unfold size; lia).
  pose proof (exit_counter_le (size out1) m Hsize1 Hm) as He2.
  destruct (downsample_points_lookup out1 m) as (out2 & Hret2 & Hout2); [nia|nia|].
  destruct (downsample_points_lookup points (n * m)) as (out3 & Hret3 & Hout3);
    [nia|nia|].
  rewrite Hret1, bind_ret, Hret2, Hret3. f_equal.
  apply list_eq. intros k. rewrite Hout2, Hout1, Hout3. f_equal.
  rewrite Z2Nat.inj_mul by lia. lia.
Qed.

Lemma downsample_points_twice_witness :
  (once ← downsample_points sample_path 2; downsample_points once 2)
  = downsample_points sample_path (2 * 2).
Proof. apply (downsample_points_twice sample_path 2 2); by vm_compute. Defined.

(** X9: the empty path and the zero stride.  With stride 0 the call has
    undefined behaviour on every path, the empty one included: the
    capacity to reserve divides the size by the stride.  With any other
    [int] stride, negative ones included, the empty path gives the empty
    path. *)
Theorem downsample_points_edges (points : list PointSpeedPair) (nth_point : Z) :
  INT_MIN <= nth_point <= INT_MAX →
  downsample_points points 0 = undefined ∧
  downsample_points [] nth_point = if nth_point =? 0 then undefined else mret [].
Proof.
  unfold INT_MIN, INT_MAX. intros HN. split; [done|].
  destruct (Z.eqb_spec nth_point 0) as [->|Hne]; [done|].
  unfold downsample_points, size_t_div.
  assert (Hconv : to_size_t nth_point ≠ 0).
  { destruct (Z.lt_ge_cases nth_point 0).
    - rewrite to_size_t_negative by (unfold SIZE_MODULUS; lia).
      unfold SIZE_MODULUS. lia.
    - rewrite to_size_t_nonneg by (unfold SIZE_MODULUS; lia). done. }
  destruct (Z.eqb_spec (to_size_t nth_point) 0) as [?|_]; [done|].
  rewrite bind_ret. apply downsample_loop_exit. done.
Qed.

Lemma downsample_points_edges_witness :
  downsample_points sample_path 0 = undefined ∧
  downsample_points [] (-3) = if -3 =? 0 then undefined else mret [].
Proof. apply (downsample_points_edges sample_path (-3)). by vm_compute. Defined.

(** ** compute_fit on three points or more *)

Lemma compute_fit_loop_step fuel basic_points i points_x points_y :
  (i <? size basic_points) = true →
  compute_fit_loop (S fuel) basic_points i points_x points_y
  = (p ← at_ basic_points i;
     ROS_WARN_STREAM [Str "basic_points[i]: "; Dbl (pt_x p); Str ", "; Dbl (pt_y p)];;
     compute_fit_loop fuel basic_points (size_t_add i 1)
       (push_back points_x (pt_x p)) (push_back points_y (pt_y p))).
Proof. intros H. simpl. by rewrite H. Qed.

Lemma compute_fit_loop_exit fuel basic_points i points_x points_y :
  (i <? size basic_points) = false →
  compute_fit_loop fuel basic_points i points_x points_y = mret (points_x, points_y).
Proof. intros H. destruct fuel; simpl; by rewrite H. Qed.

(** The loop from index [i] on pushes the coordinates of the remaining
    points and emits their diagnostics, in order. *)
Lemma compute_fit_loop_spec (basic_points : list BasicPoint2d) :
  is_vector basic_points →
  ∀ fuel (i : nat) points_x points_y,
    (length basic_points - i ≤ fuel)%nat →
    compute_fit_loop fuel basic_points (Z.of_nat i) points_x points_y
    = (Ok (points_x ++ map pt_x (drop i basic_points),
           points_y ++ map pt_y (drop i basic_points)),
       map point_diagnostic (drop i basic_points)).
Proof.
  intros Hvec. unfold is_vector, size in Hvec.
  induction fuel as [|fuel IH]; intros i points_x points_y Hfuel.
  - rewrite compute_fit_loop_exit by (apply Z.ltb_ge; unfold size; lia).
    rewrite drop_ge by lia. simpl. by rewrite !app_nil_r.
  - destruct (decide (i < length basic_points)%nat) as [Hlt|Hge].
    + destruct (lookup_lt_is_Some_2 basic_points i Hlt) as [p Hp].
      rewrite compute_fit_loop_step by (apply Z.ltb_lt; unfold size; lia).
      rewrite (at_lookup basic_points (Z.of_nat i) p) by (by rewrite Nat2Z.id).
      rewrite bind_ret, size_t_add_one by lia.
      replace (Z.of_nat i + 1) with (Z.of_nat (S i)) by lia.
      rewrite IH by lia. rewrite (drop_S basic_points p i Hp).
      unfold push_back. simpl. by rewrite <- !app_assoc.
    + rewrite compute_fit_loop_exit by (apply Z.ltb_ge; unfold size; lia).
      rewrite drop_ge by lia. simpl. by rewrite !app_nil_r.
Qed.

(** X10: on three points or more [compute_fit] returns a curve, never
    the empty result: the curve that [set_points] builds from the
    x-coordinates and the y-coordinates of the points in their order.
    It emits one diagnostic for each point, with its two coordinates,
    and not the one for too few points. *)
Theorem compute_fit_sufficient (basic_points : list BasicPoint2d) :
  is_vector basic_points → (3 ≤ length basic_points)%nat →
  compute_fit basic_points
  = (Ok (Some (set_points default_spline (map pt_x basic_points)
                          (map pt_y basic_points))),
     map point_diagnostic basic_points).
Proof.
  intros Hvec Hlen. unfold compute_fit.
  destruct (Z.ltb_spec (size basic_points) 3) as [Hlt|_]; [unfold size in Hlt; lia|].
  pose proof (compute_fit_loop_spec basic_points Hvec (length basic_points)
                0%nat [] [] ltac:(lia)) as Hloop.
  change (Z.of_nat 0) with 0 in Hloop. rewrite Hloop.
  rewrite drop_0. simpl. by rewrite app_nil_r.
Qed.

Lemma compute_fit_sufficient_witness :
  compute_fit [mkPoint 0 0; mkPoint 1 1; mkPoint 2 4]
  = (Ok (Some (set_points default_spline
                          (map pt_x [mkPoint 0 0; mkPoint 1 1; mkPoint 2 4])
                          (map pt_y [mkPoint 0 0; mkPoint 1 1; mkPoint 2 4]))),
     map point_diagnostic [mkPoint 0 0; mkPoint 1 1; mkPoint 2 4]).
Proof.
  apply (compute_fit_sufficient [mkPoint 0 0; mkPoint 1 1; mkPoint 2 4]).
  - by vm_compute.
  - simpl. lia.
Defined.

(** ** Yaw and curvature sequences: values *)

Lemma padded_values {A} (n : nat) (vals : list A) (value : nat → option A) :
  (2 ≤ n)%nat → Z.of_nat (length vals) = Z.of_nat n - 1 - 0 →
  (∀ j : nat, (j + 1 < n)%nat → vals !! j = value j) →
  ∃ ys,
    (v ← back vals; mret (push_back vals v)) = mret ys ∧
    length ys = n ∧
    (∀ j : nat, (j + 1 < n)%nat → ys !! j = value j) ∧
    ys !! (n - 1)%nat = value (n - 2)%nat.
Proof.
  intros Hn Hlen Hval. destruct (snoc_of_length vals) as [front [v ->]]; [lia|].
  rewrite length_app in Hlen. simpl in Hlen.
  rewrite back_snoc, bind_ret. eexists. split_and!; [done| | |]; unfold push_back.
  - rewrite !length_app. simpl. lia.
  - intros j Hj. rewrite <- (Hval j Hj). apply lookup_app_l. rewrite length_app. simpl. lia.
  - rewrite <- (Hval (n - 2)%nat) by lia.
    replace (n - 1)%nat with (length (front ++ [v])) by (rewrite length_app; simpl; lia).
    replace (n - 2)%nat with (length front) by lia.
    rewrite list_lookup_middle by done. by rewrite list_lookup_middle.
Qed.

Lemma pair_at (sampling_points : list BasicPoint2d) (j : nat) :
  (j + 1 < length sampling_points + 1)%nat → (j + 1 < length sampling_points)%nat →
  ∃ p q, sampling_points !! j = Some p ∧ sampling_points !! (j + 1)%nat = Some q.
Proof.
  intros _ Hj.
  destruct (lookup_lt_is_Some_2 sampling_points j ltac:(lia)) as [p Hp].
  destruct (lookup_lt_is_Some_2 sampling_points (j + 1) ltac:(lia)) as [q Hq].
  by exists p, q.
Qed.

(** X11: the yaw sequence in full.  For a vector of at least two
    sampling points [compute_orientation_from_fit] returns, without
    diagnostics, a sequence as long as the points whose value at every
    sample that has a successor is atan2 of the difference of the y
    coordinates and of the x coordinates, successor minus sample; the
    value at the last sample is the one of the last pair again. *)
Theorem compute_orientation_from_fit_values (atan2 : float → float → float)
    (curve : spline) (sampling_points : list BasicPoint2d) :
  is_vector sampling_points → (2 ≤ length sampling_points)%nat →
  ∃ ys,
    compute_orientation_from_fit atan2 curve sampling_points = mret ys ∧
    length ys = length sampling_points ∧
    (∀ i p q,
       sampling_points !! i = Some p → sampling_points !! (i + 1)%nat = Some q →
       ys !! i = Some (atan2 (pt_y q - pt_y p) (pt_x q - pt_x p))%float) ∧
    (∀ p q,
       sampling_points !! (length sampling_points - 2)%nat = Some p →
       sampling_points !! (length sampling_points - 1)%nat = Some q →
       ys !! (length sampling_points - 1)%nat
       = Some (atan2 (pt_y q - pt_y p) (pt_x q - pt_x p))%float).
Proof.
  intros Hvec Hlen.
  assert (Hsize : 1 <= size sampling_points <= PTRDIFF_MAX).
  { unfold is_vector, size in *. lia. }
  unfold compute_orientation_from_fit.
  destruct (orientation_loop_spec atan2 sampling_points Hsize
              (S (length sampling_points)) 0 0 0 0 0 [])
    as [vals [-> [Hvals Hval]]]; [lia | unfold size; lia |].
  rewrite bind_ret. simpl app.
  destruct (padded_values (length sampling_points) vals
              (λ j, p ← sampling_points !! j; q ← sampling_points !! (j + 1)%nat;
                    Some (yaw_between atan2 p q)) Hlen Hvals)
    as (ys & -> & Hys & Hpairs & Hlast).
  { intros j Hj.
    destruct (pair_at sampling_points j ltac:(lia) Hj) as (p & q & Hp & Hq).
    rewrite Hp, Hq. simpl. by eapply Hval. }
  exists ys. split_and!; [done|done| |].
  - intros i p q Hp Hq. rewrite Hpairs by (apply lookup_lt_Some in Hq; lia).
    by rewrite Hp, Hq.
  - intros p q Hp Hq. rewrite Hlast, Hp.
    replace (length sampling_points - 2 + 1)%nat
      with (length sampling_points - 1)%nat by lia.
    by rewrite Hq.
Qed.

Lemma compute_orientation_from_fit_values_witness :
  ∃ ys,
    compute_orientation_from_fit atan2_on_axes default_spline
      [mkPoint 0 0; mkPoint 1 0; mkPoint 1 2] = mret ys ∧
    length ys = length [mkPoint 0 0; mkPoint 1 0; mkPoint 1 2] ∧
    (∀ i p q,
       [mkPoint 0 0; mkPoint 1 0; mkPoint 1 2] !! i = Some p →
       [mkPoint 0 0; mkPoint 1 0; mkPoint 1 2] !! (i + 1)%nat = Some q →
       ys !! i = Some (atan2_on_axes (pt_y q - pt_y p) (pt_x q - pt_x p))%float) ∧
    (∀ p q,
       [mkPoint 0 0; mkPoint 1 0; mkPoint 1 2]
         !! (length [mkPoint 0 0; mkPoint 1 0; mkPoint 1 2] - 2)%nat = Some p →
       [mkPoint 0 0; mkPoint 1 0; mkPoint 1 2]
         !! (length [mkPoint 0 0; mkPoint 1 0; mkPoint 1 2] - 1)%nat = Some q →
       ys !! (length [mkPoint 0 0; mkPoint 1 0; mkPoint 1 2] - 1)%nat
       = Some (atan2_on_axes (pt_y q - pt_y p) (pt_x q - pt_x p))%float).
Proof.
  apply (compute_orientation_from_fit_values atan2_on_axes default_spline
           [mkPoint 0 0; mkPoint 1 0; mkPoint 1 2]).
  - by vm_compute.
  - simpl. lia.
Defined.

Lemma compute_curvature_from_fit_aux (atan2 : float → float → float)
    (sin : float → float) (curve : spline) (sampling_points : list BasicPoint2d) :
  is_vector sampling_points → (2 ≤ length sampling_points)%nat →
  ∃ ys,
    compute_curvature_from_fit atan2 sin curve sampling_points
    = (Ok ys, [[Str "Computing Curvatures"]]) ∧
    length ys = length sampling_points ∧
    (∀ j : nat, (j + 1 < length sampling_points)%nat →
       ys !! j = (p ← sampling_points !! j; q ← sampling_points !! (j + 1)%nat;
                  Some (curvature_between atan2 sin p q))) ∧
    ys !! (length sampling_points - 1)%nat
    = (p ← sampling_points !! (length sampling_points - 2)%nat;
       q ← sampling_points !! (length sampling_points - 2 + 1)%nat;
       Some (curvature_between atan2 sin p q)).
Proof.
  intros Hvec Hlen.
  assert (Hsize : 1 <= size sampling_points <= PTRDIFF_MAX).
  { unfold is_vector, size in *. lia. }
  unfold compute_curvature_from_fit.
  destruct (curvature_loop_spec atan2 sin sampling_points Hsize
              (S (length sampling_points)) 0 0 0 0 0 [])
    as [vals [-> [Hvals Hval]]]; [lia | unfold size; lia |].
  rewrite bind_ret. simpl app.
  destruct (padded_values (length sampling_points) vals
              (λ j, p ← sampling_points !! j; q ← sampling_points !! (j + 1)%nat;
                    Some (curvature_between atan2 sin p q)) Hlen Hvals)
    as (ys & -> & Hys & Hpairs & Hlast).
  { intros j Hj.
    destruct (pair_at sampling_points j ltac:(lia) Hj) as (p & q & Hp & Hq).
    rewrite Hp, Hq. simpl. by eapply Hval. }
  by exists ys.
Qed.



Lemma SFltb_SFabs_zero (x : spec_float) : SFltb (SFabs x) (S754_zero false) = false.
Proof. by destruct x as [[]|[]| |[] m e]. Qed.

Lemma fabs_not_negative (c : float) : (fabs c <? 0)%float = false.
Proof.
  unfold fabs. rewrite FloatAxioms.ltb_spec, abs_spec.
  assert (Hzero : Prim2SF 0 = S754_zero false) by (vm_compute; reflexivity).
  rewrite Hzero. apply SFltb_SFabs_zero.
Qed.

Lemma short_input_undefined (atan2 : float → float → float) (sin : float → float)
    (curve : spline) (sampling_points : list BasicPoint2d) :
  (length sampling_points < 2)%nat →
  result (compute_curvature_from_fit atan2 sin curve sampling_points) = Undefined.
Proof.
  destruct sampling_points as [|p [|q rest]]; simpl length; intros H; [done|done|lia].
Qed.

(** X13: no curvature is negative.  Whatever sequence
    [compute_curvature_from_fit] returns for a vector of sampling
    points, with any mathematics library, none of its elements is below
    zero (an element may be NaN, which compares false with zero). *)
Theorem compute_curvature_from_fit_not_negative (atan2 : float → float → float)
    (sin : float → float) (curve : spline) (sampling_points : list BasicPoint2d)
    (ys : list float) :
  is_vector sampling_points →
  result (compute_curvature_from_fit atan2 sin curve sampling_points) = Ok ys →
  ∀ k, k ∈ ys → (k <? 0)%float = false.
Proof.
  intros Hvec Hret k Hk.
  destruct (decide (length sampling_points < 2)%nat) as [Hshort|Hlong].
  { by rewrite (short_input_undefined atan2 sin curve _ Hshort) in Hret. }
  destruct (compute_curvature_from_fit_aux atan2 sin curve sampling_points Hvec
              ltac:(lia)) as (ys' & Hret' & Hys & Hpairs & Hlast).
  rewrite Hret' in Hret. injection Hret as <-.
  apply list_elem_of_lookup_1 in Hk as [j Hj].
  assert (Hform : ∃ p q, k = curvature_between atan2 sin p q).
  { pose proof (lookup_lt_Some _ _ _ Hj) as Hjlen. rewrite Hys in Hjlen.
    destruct (decide (j + 1 < length sampling_points)%nat) as [Hin|Hend].
    - rewrite (Hpairs j Hin) in Hj.
      destruct (sampling_points !! j) as [p|]; [|done].
      destruct (sampling_points !! (j + 1)%nat) as [q|]; [|done].
      exists p, q. simpl in Hj. congruence.
    - replace j with (length sampling_points - 1)%nat in Hj by lia.
      rewrite Hlast in Hj.
      destruct (sampling_points !! (length sampling_points - 2)%nat) as [p|]; [|done].
      destruct (sampling_points !! (length sampling_points - 2 + 1)%nat) as [q|];
        [|done].
      exists p, q. simpl in Hj. congruence. }
  destruct Hform as (p & q & ->). apply fabs_not_negative.
Qed.

Lemma compute_curvature_from_fit_not_negative_witness :
  is_vector [mkPoint 0 0x1p-20; mkPoint 0 0] ∧
  ∀ k, k ∈ [2097152%float; 2097152%float] → (k <? 0)%float = false.
Proof.
  split; [by vm_compute|].
  apply (compute_curvature_from_fit_not_negative atan2_on_axes sin_on_axes
           default_spline [mkPoint 0 0x1p-20; mkPoint 0 0]);
    by vm_compute.
Defined.



(** ** getNearestPointIndex: what it reads, and degenerate positions *)

Lemma nearest_loop_positions (veh_point : BasicPoint2d)
    (points1 points2 : list PointSpeedPair) :
  map fst points1 = map fst points2 →
  ∀ min_distance i best_index,
    nearest_loop veh_point points1 min_distance i best_index
    = nearest_loop veh_point points2 min_distance i best_index.
Proof.
  revert points2. induction points1 as [|p1 points1 IH]; intros [|p2 points2] Heq;
    try done.
  injection Heq as Hp Hrest. intros min_distance i best_index. simpl. rewrite Hp.
  destruct (distance2d p2.1 veh_point <? min_distance)%float;
    (destruct (int_add i 1) as [[i'| | |] log]; [|done|done|done]);
    unfold mbind, M_bind; by rewrite (IH points2 Hrest).
Qed.

(** X15: [getNearestPointIndex] reads positions only: two paths with
    the same positions, whatever their target speeds, and two vehicle
    states with the same X and Y, whatever their orientation and
    velocity, give the same index. *)
Theorem getNearestPointIndex_positions (points1 points2 : list PointSpeedPair)
    (state1 state2 : VehicleState) :
  map fst points1 = map fst points2 →
  X_pos_global state1 = X_pos_global state2 →
  Y_pos_global state1 = Y_pos_global state2 →
  getNearestPointIndex points1 state1 = getNearestPointIndex points2 state2.
Proof.
  intros Hpoints HX HY. unfold getNearestPointIndex. rewrite HX, HY.
  by apply nearest_loop_positions.
Qed.

Lemma getNearestPointIndex_positions_witness :
  getNearestPointIndex sample_path sample_state
  = getNearestPointIndex (map (λ p, (fst p, 9%float)) sample_path)
                         (mkVehicleState 0 0 1 7).
Proof.
  apply (getNearestPointIndex_positions sample_path
           (map (λ p, (fst p, 9%float)) sample_path)
           sample_state (mkVehicleState 0 0 1 7)); reflexivity.
Defined.

Lemma is_nan_true_spec (a : float) : is_nan a = true ↔ Prim2SF a = S754_nan.
Proof.
  split.
  - intros H. destruct (Prim2SF a) eqn:Ha; try done;
      (assert (Hf : is_nan a = false) by (apply is_nan_spec; by rewrite Ha));
      congruence.
  - intros H. destruct (is_nan a) eqn:Hn; [done|].
    apply is_nan_spec in Hn. done.
Qed.

Lemma SFsub_nan_r (x : spec_float) : SF64sub x S754_nan = S754_nan.
Proof. by destruct x. Qed.

Lemma SFadd_nan_r (x : spec_float) : SF64add x S754_nan = S754_nan.
Proof. by destruct x. Qed.

Lemma distance2d_nan (p q : BasicPoint2d) :
  is_nan (pt_x q) = true ∨ is_nan (pt_y q) = true →
  is_nan (distance2d p q) = true.
Proof.
  unfold distance2d. rewrite !is_nan_true_spec.
  rewrite sqrt_spec, add_spec, !mul_spec, !sub_spec.
  intros [-> | ->]; rewrite SFsub_nan_r.
  - reflexivity.
  - change (SF64mul S754_nan S754_nan) with S754_nan. by rewrite SFadd_nan_r.
Qed.

Lemma nearest_loop_all_nan (veh_point : BasicPoint2d) (points : list PointSpeedPair) :
  (∀ p, is_nan (distance2d p veh_point) = true) →
  ∀ min_distance i best_index,
    0 <= i → i + size points <= INT_MAX →
    nearest_loop veh_point points min_distance i best_index = mret best_index.
Proof.
  intros Hnan. induction points as [|p points IH];
    intros min_distance i best_index Hi Hsize; [done|].
  unfold size in *. simpl length in Hsize. simpl nearest_loop.
  destruct (distance2d p.1 veh_point <? min_distance)%float eqn:Hlt.
  { apply ltb_not_nan in Hlt. by rewrite Hnan in Hlt. }
  rewrite int_add_in_range by (unfold INT_MIN; lia).
  rewrite bind_ret. apply IH; lia.
Qed.

(** X16: a vehicle position that is not a number is not reported: when
    X or Y of the vehicle state is NaN, [getNearestPointIndex] returns
    index 0 on every path (of at most [INT_MAX] entries), without error
    or diagnostic. *)
Theorem getNearestPointIndex_nan_position (points : list PointSpeedPair)
    (state : VehicleState) :
  is_nan (X_pos_global state) = true ∨ is_nan (Y_pos_global state) = true →
  size points <= INT_MAX →
  getNearestPointIndex points state = mret 0.
Proof.
  intros Hnan Hsize. unfold getNearestPointIndex.
  apply nearest_loop_all_nan; [|done|lia].
  intros p. by apply distance2d_nan.
Qed.

Lemma getNearestPointIndex_nan_position_witness :
  getNearestPointIndex sample_path (mkVehicleState nan 0 0 0) = mret 0.
Proof.
  apply (getNearestPointIndex_nan_position sample_path (mkVehicleState nan 0 0 0)).
  - left. reflexivity.
  - by vm_compute.
Defined.

Lemma SFsub_self (x : spec_float) :
  x ≠ S754_nan → (∀ s, x ≠ S754_infinity s) → SF64sub x x = S754_zero false.
Proof.
  intros Hnan Hinf. destruct x as [[]|s| |s m e]; try done.
  - by destruct (Hinf s).
  - unfold SF64sub, SFsub. by rewrite Z.sub_diag.
Qed.

Lemma sub_self (a : float) : is_finite a = true → (a - a)%float = 0%float.
Proof.
  intros Hfin. apply is_finite_spec in Hfin as [Hnan Hinf].
  apply Prim2SF_inj. rewrite sub_spec, SFsub_self by done.
  symmetry. vm_compute. reflexivity.
Qed.

Lemma sqrt_not_negative (x : float) : (sqrt x <? 0)%float = false.
Proof.
  rewrite FloatAxioms.ltb_spec, sqrt_spec.
  assert (Hzero : Prim2SF 0 = S754_zero false) by (vm_compute; reflexivity).
  rewrite Hzero. unfold SF64sqrt.
  destruct (Prim2SF x) as [[]|[]| |[] m e]; try done.
  simpl SFsqrt.
  pose proof (SFsqrt_core_nonneg (Zpos m) e) as Hq.
  destruct (SFsqrt_core_binary prec emax (Zpos m) e) as [[q e'] l].
  pose proof (binary_round_aux_sign false q e' l Hq) as H.
  by destruct (binary_round_aux prec emax false q e' l) as [[]|[]| |[] ? ?].
Qed.

Lemma SFleb_antisym (x y : spec_float) :
  SFleb x y = true → SFleb y x = true → SFeqb x y = true.
Proof.
  unfold SFleb, SFeqb.
  sf_cases x; sf_cases y; simpl; try done;
    intros Hxy Hyx; compare_cases; simpl in *; try done; try lia.
Qed.

Lemma leb_antisym (a b : float) :
  (a <=? b)%float = true → (b <=? a)%float = true → (a =? b)%float = true.
Proof.
  rewrite !FloatAxioms.leb_spec, FloatAxioms.eqb_spec. apply SFleb_antisym.
Qed.

(** X17: a vehicle that stands on the path.  When the vehicle position,
    with finite coordinates, is the position of the path entry at index
    [k], [getNearestPointIndex] returns an index that is not after [k]
    and whose entry is at distance zero from the vehicle. *)
Theorem getNearestPointIndex_on_path (points : list PointSpeedPair)
    (state : VehicleState) (k : nat) (pk : PointSpeedPair) :
  size points <= INT_MAX →
  points !! k = Some pk →
  pt_x (fst pk) = X_pos_global state → pt_y (fst pk) = Y_pos_global state →
  is_finite (X_pos_global state) = true → is_finite (Y_pos_global state) = true →
  ∃ (i : nat) (p : PointSpeedPair),
    getNearestPointIndex points state = mret (Z.of_nat i) ∧
    (i ≤ k)%nat ∧ points !! i = Some p ∧
    (distance_to state p =? 0)%float = true.
Proof.
  intros Hsize Hk HX HY HfinX HfinY.
  assert (Hzero : distance_to state pk = 0%float).
  { unfold distance_to, distance2d. simpl. rewrite HX, HY, !sub_self by done.
    reflexivity. }
  destruct (nearest_loop_spec state points [] DBL_MAX 0 Hsize)
    as (m & b & Hloop & Hinv).
  { left. split_and!; [done|done|]. intros q Hq. by apply elem_of_nil in Hq. }
  simpl in Hinv.
  destruct Hinv as [(_ & _ & Hnone)|(pb & Hb & Hpb & <- & Hm & Hcl & Hfirst)].
  { specialize (Hnone pk (list_elem_of_lookup_2 _ _ _ Hk)).
    by rewrite Hzero in Hnone. }
  pose proof (ltb_not_nan _ _ Hm) as Hnum.
  pose proof (Hcl k pk Hk) as Hnot. rewrite Hzero in Hnot.
  assert (Hle : (distance_to state pb <=? 0)%float = true) by (by apply nlt_leb).
  assert (Hge : (0 <=? distance_to state pb)%float = true).
  { apply nlt_leb; [done|done|]. apply sqrt_not_negative. }
  exists (Z.to_nat b), pb. rewrite Z2Nat.id by done. split_and!; [done| |done|].
  - destruct (decide (Z.to_nat b ≤ k)%nat) as [|Hafter]; [done|].
    specialize (Hfirst k pk Hk ltac:(lia)). rewrite Hzero in Hfirst. congruence.
  - by apply leb_antisym.
Qed.

Lemma getNearestPointIndex_on_path_witness :
  ∃ (i : nat) (p : PointSpeedPair),
    getNearestPointIndex sample_path (mkVehicleState 2 2 0 0) = mret (Z.of_nat i) ∧
    (i ≤ 2)%nat ∧ sample_path !! i = Some p ∧
    (distance_to (mkVehicleState 2 2 0 0) p =? 0)%float = true.
Proof.
  apply (getNearestPointIndex_on_path sample_path (mkVehicleState 2 2 0 0) 2
           (mkPoint 2 2, 5%float)); try reflexivity.
  by vm_compute.
Defined.

(** ** The functions in sequence *)

Lemma map_fst_maneuver_points (wm : WorldModel) (m : Maneuver) :
  map fst (maneuver_points wm m) = route_geometry wm m.
Proof.
  unfold maneuver_points, route_geometry. rewrite map_map. simpl. apply map_id.
Qed.

Lemma map_concat {A B} (f : A → B) (ls : list (list A)) :
  map f (concat ls) = concat (map (map f) ls).
Proof. induction ls as [|l ls IH]; simpl; [done|]. by rewrite map_app, IH. Qed.

(** X18: the positions of the extracted path are the lane geometries of
    the maneuvers, one after the other: for lane-following maneuvers,
    [pointSpeedPairsToBasicPoints] of the result of
    [maneuvers_to_points] is the concatenation of the geometries that
    the lane model returned, with no point added, dropped or merged at
    the joints, and every speed of the path is the end speed of one of
    the maneuvers. *)
Theorem extracted_path_positions (maneuvers : list Maneuver) (wm : WorldModel) :
  Forall (λ m, type m = LANE_FOLLOWING) maneuvers →
  ∃ points,
    maneuvers_to_points maneuvers wm = mret points ∧
    pointSpeedPairsToBasicPoints points = concat (map (route_geometry wm) maneuvers) ∧
    ∀ p, p ∈ points →
         ∃ m, m ∈ maneuvers ∧ snd p = end_speed (lane_following_maneuver m).
Proof.
  intros Hall. eexists. split_and!.
  - unfold maneuvers_to_points. by rewrite maneuvers_to_points_loop_following.
  - unfold pointSpeedPairsToBasicPoints, reserve.
    rewrite basic_points_loop_spec. simpl app.
    rewrite map_concat, map_map. f_equal. apply map_ext. intros m.
    apply map_fst_maneuver_points.
  - intros p Hp. simpl in Hp. apply list_elem_of_In, in_concat in Hp as (l & Hl & Hp).
    apply in_map_iff in Hl as (m & <- & Hm).
    exists m. split; [by apply list_elem_of_In|].
    unfold maneuver_points in Hp. apply in_map_iff in Hp as (q & <- & _). done.
Qed.

Lemma extracted_path_positions_witness :
  ∃ points,
    maneuvers_to_points [sample_following; sample_following] sample_world
    = mret points ∧
    pointSpeedPairsToBasicPoints points
    = concat (map (route_geometry sample_world) [sample_following; sample_following]) ∧
    ∀ p, p ∈ points →
         ∃ m, m ∈ [sample_following; sample_following] ∧
              snd p = end_speed (lane_following_maneuver m).
Proof.
  apply (extracted_path_positions [sample_following; sample_following] sample_world).
  repeat constructor.
Defined.

(** X19: a stride that leaves fewer than three entries leaves nothing
    to fit: when [downsample_points] with a stride of at least 1 keeps
    fewer than three entries of a path, [compute_fit] on the positions
    of the downsampled path returns the empty result with the
    diagnostic "Insufficient Spline Points". *)
Theorem downsampled_fit_insufficient (points : list PointSpeedPair) (nth_point : Z) :
  1 <= nth_point <= INT_MAX → exit_counter (size points) nth_point <= INT_MAX →
  kept (size points) nth_point < 3 →
  (downsampled ← downsample_points points nth_point;
   compute_fit (pointSpeedPairsToBasicPoints downsampled))
  = (Ok None, [[Str "Insufficient Spline Points"]]).
Proof.
  intros HN Hexit Hkept.
  destruct (downsample_points_spec points nth_point HN Hexit)
    as (out & Hret & _ & Hlen).
  rewrite Hret, bind_ret. unfold compute_fit.
  assert (Hsame : size (pointSpeedPairsToBasicPoints out) = size out).
  { unfold size, pointSpeedPairsToBasicPoints, reserve.
    rewrite basic_points_loop_spec. simpl app. by rewrite length_map. }
  rewrite Hsame, Hlen.
  by destruct (Z.ltb_spec (kept (size points) nth_point) 3) as [_|?]; [|lia].
Qed.

Lemma downsampled_fit_insufficient_witness :
  (downsampled ← downsample_points sample_path 3;
   compute_fit (pointSpeedPairsToBasicPoints downsampled))
  = (Ok None, [[Str "Insufficient Spline Points"]]).
Proof. apply (downsampled_fit_insufficient sample_path 3); by vm_compute. Defined.
